(** * BloomFilterHW.py: a Bloom filter over a bit vector

    A shallow embedding of the class [BloomFilter] of [src/BloomFilterHW.py]
    and the properties its specification states about it.

    Modelling decisions.
    - Python [int] is [Z].  Python [float] is idealised as a real number
      ([R]): rounding, overflow and the error of the C library's [pow] are
      not represented, so a float operation raises here only where it
      raises in exact arithmetic: the model can return where the code
      raises [OverflowError] or [ZeroDivisionError], and what it returns
      is not rounded.  Only [__bitsNeeded] and [falsePositiveRate] compute
      with floats; what is proved about them is stated for whatever
      instance the constructor returns, and invariants over sequences of
      calls for whatever point a sequence reaches.
    - [BitHash] (module [BitHash]) and [BitVector] (module [BitVector]) are
      imported by the source and are not part of it.  [BitHash] is a
      parameter of the development; [BitVector] is modelled as a list of
      bits with bounds-checked indexing.
    - A method is a computation in a monad that threads the instance's
      attributes, may raise (no result), and records every call of
      [BitHash] it makes.
    - The driver [__main] reads a text file and prints: an open file is
      the list of its lines still to be read, the file system is a
      parameter, and the driver returns the lines it prints. *)

From Stdlib Require Import ZArith Reals Lra Lia.
From stdpp Require Import base option list strings.

Local Open Scope Z_scope.

(** ** Python primitives used by the source *)

Module Py.

(** [range(lo, hi)]: the integers [lo], [lo+1], ..., [hi-1]. *)
Definition range (lo hi : Z) : list Z := seqZ lo (hi - lo).

(** [a % n] on integers: raises [ZeroDivisionError] when [n] is zero;
    otherwise the result has the sign of [n], as [Z.modulo]. *)
Definition mod_ (a n : Z) : option Z :=
  if decide (n = 0) then None else Some (a mod n).

(** [a / b] (true division): raises [ZeroDivisionError] when [b] is zero. *)
Definition truediv (a b : R) : option R :=
  if Req_dec_T b 0 then None else Some (a / b)%R.

(** [x ** y] on floats.  A zero base raised to a negative power raises
    [ZeroDivisionError]; a negative base raised to a fractional power is
    a complex number, which no later float operation of the source turns
    back into a float ([int] of it raises [TypeError]): both are [None]. *)
Definition pow (x y : R) : option R :=
  if Rlt_dec 0 x then Some (Rpower x y)
  else if Req_dec_T x 0 then
    (if Rlt_dec 0 y then Some 0%R
     else if Req_dec_T y 0 then Some 1%R else None)
  else if Req_dec_T y (IZR (Zfloor y)) then
    Some (if Z.even (Zfloor y) then Rpower (- x) y else - Rpower (- x) y)%R
  else None.

(** [int(x)]: truncation towards zero. *)
Definition int (x : R) : Z :=
  if Rle_dec 0 x then Zfloor x else Zceil x.

End Py.

(** ** The imported [BitVector] *)

Module BitVector.

(** [BitVector(size=n)]: [n] bits, all zero; a negative size is refused. *)
Definition new (size : Z) : option (list bool) :=
  if decide (0 ≤ size) then Some (replicate (Z.to_nat size) false) else None.

(** [bv[a]]; the source only indexes with [h % numBits], which lies in
    [0, numBits) for a vector of [numBits > 0] bits; an index outside the
    vector raises. *)
Definition getitem (bv : list bool) (a : Z) : option bool :=
  if decide (0 ≤ a) then bv !! Z.to_nat a else None.

(** [bv[a] = v]. *)
Definition setitem (bv : list bool) (a : Z) (v : bool) : option (list bool) :=
  if decide (0 ≤ a < Z.of_nat (length bv))
  then Some (<[Z.to_nat a := v]> bv) else None.

End BitVector.

(** ** The attributes of a [BloomFilter] instance *)

Record BloomFilter : Type := mkBloomFilter {
  numKeys : Z;
  numHashes : Z;
  maxFalsePositive : R;
  numBits : Z;
  bitVector : list bool;
  bitsSet : Z
}.

Definition set_bitVector (bv : list bool) (f : BloomFilter) : BloomFilter :=
  {| numKeys := numKeys f; numHashes := numHashes f;
     maxFalsePositive := maxFalsePositive f; numBits := numBits f;
     bitVector := bv; bitsSet := bitsSet f |}.

Definition set_bitsSet (c : Z) (f : BloomFilter) : BloomFilter :=
  {| numKeys := numKeys f; numHashes := numHashes f;
     maxFalsePositive := maxFalsePositive f; numBits := numBits f;
     bitVector := bitVector f; bitsSet := c |}.

(** ** The constructor

    [__bitsNeeded] and [__init__] run before there is an instance to
    thread: they are plain partial functions. *)

Definition bitsNeeded (numKeys numHashes : Z) (maxFalsePositive : R) : option Z :=
  e ← Py.truediv 1 (IZR numHashes);
  p ← Py.pow maxFalsePositive e;
  let bitsStillZero := (1 - p)%R in
  e' ← Py.truediv 1 (IZR numKeys);
  p' ← Py.pow bitsStillZero e';
  numBits ← Py.truediv (IZR numHashes) (1 - p');
  Some (Py.int numBits).

Definition init (numKeys numHashes : Z) (maxFalsePositive : R) : option BloomFilter :=
  numBits ← bitsNeeded numKeys numHashes maxFalsePositive;
  bv ← BitVector.new numBits;
  Some {| numKeys := numKeys; numHashes := numHashes;
          maxFalsePositive := maxFalsePositive; numBits := numBits;
          bitVector := bv; bitsSet := 0 |}.

(** ** Methods *)

Section Methods.

Context {Key : Type}.
Variable BitHash : Key → Z → Z.

(** A call [BitHash(key, seed)]. *)
Definition HashCall : Type := Key * Z.

(** A method body: from the instance to a result, the instance after it
    and the [BitHash] calls made, or [None] when an exception escapes. *)
Definition M (A : Type) : Type :=
  BloomFilter → option (A * BloomFilter * list HashCall).

Definition ret {A} (a : A) : M A := λ f, Some (a, f, []).

Definition bind {A B} (m : M A) (k : A → M B) : M B :=
  λ f, match m f with
       | None => None
       | Some (a, f', l) =>
           match k a f' with
           | None => None
           | Some (b, f'', l') => Some (b, f'', l ++ l')
           end
       end.

Definition gets {A} (attr : BloomFilter → A) : M A := λ f, Some (attr f, f, []).

Definition modify (g : BloomFilter → BloomFilter) : M unit :=
  λ f, Some (tt, g f, []).

Definition lift {A} (o : option A) : M A :=
  λ f, match o with Some a => Some (a, f, []) | None => None end.

Definition call_BitHash (key : Key) (i : Z) : M Z :=
  λ f, Some (BitHash key i, f, [(key, i)]).

Notation "'do' x <- m ;; k" := (bind m (λ x, k))
  (at level 10, x name, m at level 99, k at level 200, only parsing).

(** [for x in l: body(x)] *)
Fixpoint for_ {A} (l : list A) (body : A → M unit) : M unit :=
  match l with
  | [] => ret tt
  | x :: l' => do _ <- body x ;; for_ l' body
  end.

(** The body of the loop of [insert]. *)
Definition insert_body (key : Key) (i : Z) : M unit :=
  do h <- call_BitHash key i ;;
  do n <- gets numBits ;;
  do a <- lift (Py.mod_ h n) ;;
  do bv <- gets bitVector ;;
  do bv' <- lift (BitVector.setitem bv a true) ;;
  do _ <- modify (set_bitVector bv') ;;
  do c <- gets bitsSet ;;
  modify (set_bitsSet (c + 1)).

Definition insert (key : Key) : M unit :=
  do d <- gets numHashes ;;
  for_ (Py.range 1 d) (insert_body key).

(** The loop of [find]; it returns from inside the loop. *)
Fixpoint find_loop (key : Key) (seeds : list Z) : M bool :=
  match seeds with
  | [] => ret true
  | i :: rest =>
      do h <- call_BitHash key i ;;
      do n <- gets numBits ;;
      do a <- lift (Py.mod_ h n) ;;
      do bv <- gets bitVector ;;
      do b <- lift (BitVector.getitem bv a) ;;
      if b then find_loop key rest else ret false
  end.

Definition find (key : Key) : M bool :=
  do d <- gets numHashes ;;
  find_loop key (Py.range 1 d).

Definition numBitsSet : M Z := gets bitsSet.

Definition falsePositiveRate : M R :=
  do n <- gets numBits ;;
  do c <- numBitsSet ;;
  do n' <- gets numBits ;;
  do bitsStillZero <- lift (Py.truediv (IZR (n - c)) (IZR n')) ;;
  do d <- gets numHashes ;;
  lift (Py.pow (1 - bitsStillZero) (IZR d)).

(** *** Sequences of calls *)

(** A caller's sequence of operations on one instance, results dropped. *)
Inductive Op : Type :=
| OpInsert (key : Key)
| OpFind (key : Key)
| OpNumBitsSet
| OpFalsePositiveRate.

Definition do_op (o : Op) : M unit :=
  match o with
  | OpInsert key => insert key
  | OpFind key => do _ <- find key ;; ret tt
  | OpNumBitsSet => do _ <- numBitsSet ;; ret tt
  | OpFalsePositiveRate => do _ <- falsePositiveRate ;; ret tt
  end.

Definition run_ops (ops : list Op) : M unit := for_ ops do_op.

Definition insert_all (keys : list Key) : M unit := for_ keys insert.

(** *** Vocabulary of the statements *)

(** The bit position the source derives from a key and a seed. *)
Definition index (f : BloomFilter) (key : Key) (i : Z) : Z :=
  BitHash key i mod numBits f.

(** The bit at a position, [None] outside the vector. *)
Definition bit (f : BloomFilter) (a : Z) : option bool :=
  BitVector.getitem (bitVector f) a.

(** The effect of one iteration of the loop of [insert]. *)
Definition mark (key : Key) (f : BloomFilter) (i : Z) : BloomFilter :=
  set_bitsSet (bitsSet f + 1)
    (set_bitVector (<[Z.to_nat (index f key i) := true]> (bitVector f)) f).

(** The seeds both loops run over, and the calls they stand for. *)
Definition seeds (f : BloomFilter) : list Z := Py.range 1 (numHashes f).

Definition seed_calls (key : Key) (l : list Z) : list HashCall :=
  (λ i, (key, i)) <$> l.

(** The instance after all iterations of [insert key]. *)
Definition inserted (f : BloomFilter) (key : Key) : BloomFilter :=
  foldl (mark key) f (seeds f).

(** Whether every bit [find key] would read is set. *)
Definition answer (f : BloomFilter) (key : Key) : bool :=
  forallb (λ i, bool_decide (bit f (index f key i) = Some true)) (seeds f).

End Methods.

(** The parameters the specification calls valid. *)
Definition valid_params (numKeys numHashes : Z) (maxFalsePositive : R) : Prop :=
  0 < numKeys ∧ 1 ≤ numHashes ∧ (0 < maxFalsePositive < 1)%R.

(** What holds of every instance built from valid parameters, at any time:
    at least one hash configured, a non-empty bit vector of [numBits] bits,
    a counter that is not negative. *)
Definition well_formed (f : BloomFilter) : Prop :=
  1 ≤ numHashes f ∧ 0 < numBits f ∧
  Z.of_nat (length (bitVector f)) = numBits f ∧ 0 ≤ bitsSet f.

(** The part of [well_formed] the loops rely on. *)
Definition sized (f : BloomFilter) : Prop :=
  0 < numBits f ∧ Z.of_nat (length (bitVector f)) = numBits f.

(** No bit that is set in [f] is clear in [f']. *)
Definition bits_kept (f f' : BloomFilter) : Prop :=
  length (bitVector f') = length (bitVector f) ∧
  ∀ a : nat, bitVector f !! a = Some true → bitVector f' !! a = Some true.

(** ** Concrete instances, for the examples *)

(** A stand-in for [BitHash] on integer keys. *)
Definition toy_hash (key i : Z) : Z := 31 * key + i.

(** [BloomFilter(1, d, 0.5 ** d)] as the constructor leaves it. *)
Definition fresh_half (d : Z) : BloomFilter :=
  {| numKeys := 1; numHashes := d; maxFalsePositive := ((1 / 2) ^ Z.to_nat d)%R;
     numBits := 2 * d; bitVector := replicate (Z.to_nat (2 * d)) false;
     bitsSet := 0 |}.

(** The number of bits that are set in a bit vector. *)
Definition popcount (bv : list bool) : nat :=
  length (filter (λ b : bool, b = true) bv).

(** ** The driver [__main]

    The words are the lines of a text file.  An open file is the list of the
    lines not read yet; [readline] returns the next one, and the empty
    string once the file is exhausted. *)

Definition File : Type := list string.

Definition readline (t : File) : string * File :=
  match t with
  | [] => (""%string, [])
  | line :: t' => (line, t')
  end.

(** An argument of [print], and a printed line. *)
Inductive Printed : Type :=
| PStr (s : string)
| PInt (z : Z)
| PFloat (r : R).

Definition Line : Type := list Printed.

Section Driver.

Variable BitHash : string → Z → Z.

(** [open(name)]: the lines of the file, [None] when it cannot be opened.
    The file is taken not to change while the driver runs. *)
Variable open_ : string → option File.

Notation "'do' x <- m ;; k" := (bind m (λ x, k))
  (at level 10, x name, m at level 99, k at level 200, only parsing).

(** [for i in range(numKeys): word = t.readline(); b.insert(word)] *)
Fixpoint insert_lines (r : list Z) (t : File) : M File :=
  match r with
  | [] => ret t
  | _ :: r' =>
      let (word, t') := readline t in
      do _ <- insert BitHash word ;;
      insert_lines r' t'
  end.

(** [for i in range(numKeys): word = t.readline();
     if b.find(word) == expected: count += 1] *)
Fixpoint count_lines (expected : bool) (r : list Z) (t : File) (count : Z)
  : M (File * Z) :=
  match r with
  | [] => ret (t, count)
  | _ :: r' =>
      let (word, t') := readline t in
      do found <- find BitHash word ;;
      count_lines expected r' t'
        (if bool_decide (found = expected) then count + 1 else count)
  end.

(** The body of [__main], with its three constants as arguments.  The
    lines printed are returned when it ends, and [None] when an exception
    escapes. *)
Definition main_with (numKeys numHashes : Z) (maxFalse : R) : option (list Line) :=
  b ← init numKeys numHashes maxFalse;
  t ← open_ "wordlist.txt";
  '(_, b, _) ← insert_lines (Py.range 0 numKeys) t b;
  '(rate, b, _) ← @falsePositiveRate string b;
  let line1 := [PStr "The projected false positive rate is:"; PFloat rate] in
  t ← open_ "wordlist.txt";
  '((t, count), b, _) ← count_lines false (Py.range 0 numKeys) t 0 b;
  let line2 := [PInt count; PStr "words are missing from the Bloom Filter"] in
  '((_, count2), b, _) ← count_lines true (Py.range 0 numKeys) t 0 b;
  let line3 := [PInt count2;
                PStr "words can be falsely found in the Bloom Filter"] in
  ratio ← Py.truediv (IZR count2) (IZR numKeys);
  let line4 := [PStr "The percentage rate of false positives is:";
                PFloat ratio] in
  Some [line1; line2; line3; line4].

Definition main : option (list Line) := main_with 100000 4 (5 / 100).

End Driver.

(** The first [k] results of [readline] on an open file. *)
Definition lines_read (k : nat) (t : File) : list string :=
  resize k ""%string t.

(** [fresh_half 3] after [insert(7)] with [toy_hash]. *)
Definition filled_half : BloomFilter :=
  {| numKeys := 1; numHashes := 3; maxFalsePositive := ((1 / 2) ^ 3)%R;
     numBits := 6; bitVector := [false; false; true; true; false; false];
     bitsSet := 2 |}.

(** A stand-in for [BitHash] on strings, and a two-line word list. *)
Definition toy_string_hash (key : string) (i : Z) : Z :=
  Z.of_nat (String.length key) + i.

Definition toy_open (name : string) : option File :=
  Some ["apple"%string; "pear"%string].

(** ** The float computations on valid parameters *)

Section Arithmetic.

Local Open Scope R_scope.

Lemma truediv_defined a b : b ≠ 0 → Py.truediv a b = Some (a / b).
Proof.
  intros Hb. unfold Py.truediv. destruct (Req_dec_T b 0); [contradiction|].
  reflexivity.
Qed.

Lemma pow_positive x y : 0 < x → Py.pow x y = Some (Rpower x y).
Proof.
  intros Hx. unfold Py.pow. destruct (Rlt_dec 0 x); [reflexivity|].
  contradiction.
Qed.

Lemma pow_zero_base y : 0 < y → Py.pow 0 y = Some 0.
Proof.
  intros Hy. unfold Py.pow.
  destruct (Rlt_dec 0 0) as [H|_]; [lra|].
  destruct (Req_dec_T 0 0) as [_|H]; [|lra].
  destruct (Rlt_dec 0 y); [reflexivity|contradiction].
Qed.

Lemma int_nonneg x : 0 <= x → Py.int x = Zfloor x.
Proof.
  intros Hx. unfold Py.int. destruct (Rle_dec 0 x); [reflexivity|].
  contradiction.
Qed.

(** A power of a number strictly between 0 and 1, with a positive
    exponent, is strictly between 0 and 1. *)
Lemma Rpower_unit_interval x y : 0 < x < 1 → 0 < y → 0 < Rpower x y < 1.
Proof.
  intros [Hx0 Hx1] Hy. unfold Rpower. split; [apply exp_pos|].
  rewrite <- exp_0. apply exp_increasing.
  assert (ln x < 0) by (rewrite <- ln_1; apply ln_increasing; lra).
  nra.
Qed.

Lemma Rpower_root x (k : nat) :
  0 < x → (0 < k)%nat → Rpower (x ^ k) (1 / INR k) = x.
Proof.
  intros Hx Hk. rewrite <- (Rpower_pow k x Hx), Rpower_mult.
  replace (INR k * (1 / INR k)) with 1.
  - apply Rpower_1, Hx.
  - field. apply not_0_INR. lia.
Qed.

(** On valid parameters no operation of [__bitsNeeded] raises, and the
    size it returns is at least the number of hashes. *)
Lemma bitsNeeded_valid n d p :
  valid_params n d p → ∃ N, bitsNeeded n d p = Some N ∧ (d ≤ N)%Z.
Proof.
  intros (Hn & Hd & Hp). unfold bitsNeeded.
  assert (Hd' : 1 <= IZR d) by (apply IZR_le; lia).
  assert (Hn' : 1 <= IZR n) by (apply IZR_le; lia).
  assert (He : 0 < 1 / IZR d) by (apply Rdiv_lt_0_compat; lra).
  assert (He' : 0 < 1 / IZR n) by (apply Rdiv_lt_0_compat; lra).
  pose proof (Rpower_unit_interval p (1 / IZR d) Hp He) as Hq.
  set (q := Rpower p (1 / IZR d)) in *.
  assert (Hq' : 0 < 1 - q < 1) by lra.
  pose proof (Rpower_unit_interval (1 - q) (1 / IZR n) Hq' He') as Hr.
  set (r := Rpower (1 - q) (1 / IZR n)) in *.
  rewrite (truediv_defined 1 (IZR d)) by lra. cbn [mbind option_bind].
  rewrite (pow_positive p) by lra. cbn [mbind option_bind]. fold q.
  rewrite (truediv_defined 1 (IZR n)) by lra. cbn [mbind option_bind].
  rewrite (pow_positive (1 - q)) by lra. cbn [mbind option_bind]. fold r.
  rewrite (truediv_defined (IZR d)) by lra. cbn [mbind option_bind].
  eexists. split; [reflexivity|].
  assert (Hle : IZR d <= IZR d / (1 - r)).
  { apply Rmult_le_reg_r with (1 - r); [lra|].
    unfold Rdiv. rewrite Rmult_assoc, Rinv_l by lra. nra. }
  rewrite int_nonneg by lra. apply Zfloor_lub, Hle.
Qed.

Lemma init_valid n d p :
  valid_params n d p →
  ∃ f, init n d p = Some f ∧ well_formed f ∧
       numKeys f = n ∧ numHashes f = d ∧ maxFalsePositive f = p ∧
       bitsSet f = 0%Z ∧
       bitVector f = replicate (Z.to_nat (numBits f)) false.
Proof.
  intros Hv. destruct (bitsNeeded_valid n d p Hv) as (N & HN & HdN).
  destruct Hv as (Hn & Hd & Hp).
  unfold init. rewrite HN. cbn [mbind option_bind].
  unfold BitVector.new. rewrite decide_True by lia. cbn [mbind option_bind].
  eexists. split; [reflexivity|]. unfold well_formed. simpl.
  rewrite length_replicate. repeat split; lia.
Qed.

(** Whatever the constructor returns on valid parameters is well formed
    and fresh. *)
Lemma init_well_formed n d p f :
  valid_params n d p → init n d p = Some f →
  well_formed f ∧ numHashes f = d ∧ bitsSet f = 0%Z.
Proof.
  intros Hv Hf. destruct (init_valid n d p Hv) as (f' & Hf' & H).
  assert (f' = f) as -> by congruence. tauto.
Qed.

(** [BloomFilter(1, d, 0.5 ** d)] has [2 * d] bits. *)
Lemma init_fresh_half d :
  (1 ≤ d)%Z → init 1 d ((1 / 2) ^ Z.to_nat d) = Some (fresh_half d).
Proof.
  intros Hd. unfold init, bitsNeeded.
  assert (Hd' : 1 <= IZR d) by (apply IZR_le; lia).
  assert (Hk : INR (Z.to_nat d) = IZR d)
    by (rewrite INR_IZR_INZ, Z2Nat.id by lia; reflexivity).
  rewrite (truediv_defined 1 (IZR d)) by lra. cbn [mbind option_bind].
  rewrite (pow_positive (_ ^ _)) by (apply pow_lt; lra).
  cbn [mbind option_bind].
  rewrite <- Hk, Rpower_root by (lra || lia).
  rewrite (truediv_defined 1 1) by lra. cbn [mbind option_bind].
  rewrite (pow_positive (1 - 1 / 2)) by lra. cbn [mbind option_bind].
  replace (1 / 1) with 1 by field. rewrite Rpower_1 by lra.
  rewrite (truediv_defined (INR _)) by lra. cbn [mbind option_bind].
  replace (INR (Z.to_nat d) / (1 - (1 - 1 / 2))) with (IZR (2 * d))
    by (rewrite Hk, mult_IZR; field).
  rewrite int_nonneg by (apply IZR_le; lia). rewrite ZfloorZ.
  unfold BitVector.new. rewrite decide_True by lia. reflexivity.
Qed.

End Arithmetic.

(** ** Properties of the loops *)

Section Properties.

Context {Key : Type}.
Variable BitHash : Key → Z → Z.

Abbreviation insert := (insert BitHash).
Abbreviation insert_body := (insert_body BitHash).
Abbreviation find := (find BitHash).
Abbreviation find_loop := (find_loop BitHash).
Abbreviation index := (index BitHash).
Abbreviation mark := (mark BitHash).
Abbreviation inserted := (inserted BitHash).
Abbreviation insert_all := (insert_all BitHash).
Abbreviation numBitsSet := (@numBitsSet Key).
Abbreviation falsePositiveRate := (@falsePositiveRate Key).
Abbreviation do_op := (do_op BitHash).
Abbreviation run_ops := (run_ops BitHash).

Implicit Types (f : BloomFilter) (key : Key) (i a : Z) (l : list Z).

Lemma well_formed_sized f : well_formed f → sized f.
Proof. unfold well_formed, sized. tauto. Qed.

Lemma index_range f key i : sized f → 0 ≤ index f key i < numBits f.
Proof. intros [Hn _]. unfold index. apply Z.mod_pos_bound, Hn. Qed.

Lemma mark_sized key f i : sized f → sized (mark key f i).
Proof.
  unfold sized, mark. simpl. rewrite length_insert. tauto.
Qed.

Lemma mark_index key f i j : index (mark key f i) key j = index f key j.
Proof. reflexivity. Qed.

Lemma foldl_mark_sized key l : ∀ f, sized f → sized (foldl (mark key) f l).
Proof.
  induction l as [|i l IH]; intros f Hf; simpl; [exact Hf|].
  apply IH, mark_sized, Hf.
Qed.

Lemma foldl_mark_fields key l : ∀ f,
  numKeys (foldl (mark key) f l) = numKeys f ∧
  numHashes (foldl (mark key) f l) = numHashes f ∧
  maxFalsePositive (foldl (mark key) f l) = maxFalsePositive f ∧
  numBits (foldl (mark key) f l) = numBits f ∧
  bitsSet (foldl (mark key) f l) = bitsSet f + Z.of_nat (length l).
Proof.
  induction l as [|i l IH]; intros f; simpl.
  - repeat split; lia.
  - destruct (IH (mark key f i)) as (-> & -> & -> & -> & ->). simpl.
    repeat split; lia.
Qed.

(** One iteration of [insert] on a sized instance: one [BitHash] call,
    one bit written, the counter up by one. *)
Lemma insert_body_sized key i f :
  sized f → insert_body key i f = Some (tt, mark key f i, [(key, i)]).
Proof.
  intros Hf. pose proof (index_range f key i Hf) as Hr. destruct Hf as [Hn Hl].
  unfold insert_body, bind, call_BitHash, gets, lift, modify, Py.mod_. simpl.
  rewrite decide_False by lia. simpl.
  unfold BitVector.setitem. fold (index f key i).
  rewrite decide_True by lia. reflexivity.
Qed.

Lemma for_insert_body key l : ∀ f,
  sized f →
  for_ l (insert_body key) f
  = Some (tt, foldl (mark key) f l, seed_calls key l).
Proof.
  induction l as [|i l IH]; intros f Hf; simpl; [reflexivity|].
  unfold bind. rewrite (insert_body_sized _ _ _ Hf).
  rewrite (IH _ (mark_sized key f i Hf)). reflexivity.
Qed.

Lemma insert_sized key f :
  sized f →
  insert key f = Some (tt, inserted f key, seed_calls key (seeds f)).
Proof.
  intros Hf. unfold insert, bind, gets. simpl.
  fold (seeds f). rewrite (for_insert_body _ _ _ Hf). reflexivity.
Qed.

(** **** Bits written by [insert] *)

Lemma mark_kept key f i (a : nat) :
  bitVector f !! a = Some true → bitVector (mark key f i) !! a = Some true.
Proof.
  intros Ha. unfold mark. simpl.
  destruct (decide (Z.to_nat (index f key i) = a)) as [->|Hne].
  - apply list_lookup_insert_eq. eapply lookup_lt_Some, Ha.
  - rewrite list_lookup_insert_ne by exact Hne. exact Ha.
Qed.

Lemma foldl_mark_kept key l (a : nat) : ∀ f,
  bitVector f !! a = Some true →
  bitVector (foldl (mark key) f l) !! a = Some true.
Proof.
  induction l as [|i l IH]; intros f Ha; simpl; [exact Ha|].
  apply IH, mark_kept, Ha.
Qed.

Lemma foldl_mark_length key l : ∀ f,
  length (bitVector (foldl (mark key) f l)) = length (bitVector f).
Proof.
  induction l as [|i l IH]; intros f; simpl; [reflexivity|].
  rewrite IH. unfold mark. simpl. apply length_insert.
Qed.

Lemma foldl_mark_set key l : ∀ f i,
  sized f → i ∈ l →
  bitVector (foldl (mark key) f l) !! Z.to_nat (index f key i) = Some true.
Proof.
  induction l as [|j l IH]; intros f i Hf Hi; [inversion Hi|].
  simpl. apply elem_of_cons in Hi as [->|Hi].
  - apply foldl_mark_kept. unfold mark. simpl.
    apply list_lookup_insert_eq.
    pose proof (index_range f key j Hf). destruct Hf. lia.
  - rewrite <- (mark_index key f j i). apply IH; [|exact Hi].
    apply mark_sized, Hf.
Qed.

Lemma inserted_sized f key : sized f → sized (inserted f key).
Proof. apply foldl_mark_sized. Qed.

Lemma inserted_fields f key :
  numKeys (inserted f key) = numKeys f ∧
  numHashes (inserted f key) = numHashes f ∧
  maxFalsePositive (inserted f key) = maxFalsePositive f ∧
  numBits (inserted f key) = numBits f ∧
  bitsSet (inserted f key) = bitsSet f + Z.of_nat (length (seeds f)).
Proof. apply foldl_mark_fields. Qed.

Lemma length_seeds f : Z.of_nat (length (seeds f)) = Z.max 0 (numHashes f - 1).
Proof. unfold seeds, Py.range. rewrite length_seqZ. lia. Qed.

Lemma elem_of_seeds f i : i ∈ seeds f ↔ 1 ≤ i < numHashes f.
Proof. unfold seeds, Py.range. rewrite elem_of_seqZ. lia. Qed.

Lemma inserted_kept f key : bits_kept f (inserted f key).
Proof.
  split; [apply foldl_mark_length|].
  intros a. apply foldl_mark_kept.
Qed.

Lemma bits_kept_refl f : bits_kept f f.
Proof. split; [reflexivity|auto]. Qed.

Lemma bits_kept_trans f1 f2 f3 :
  bits_kept f1 f2 → bits_kept f2 f3 → bits_kept f1 f3.
Proof.
  intros [L1 K1] [L2 K2]. split; [congruence|]. intros a Ha. auto.
Qed.

(** **** The loop of [find] *)

Lemma bit_defined f a :
  sized f → 0 ≤ a < numBits f → ∃ b, bit f a = Some b.
Proof.
  intros [_ Hl] Ha. unfold bit, BitVector.getitem.
  rewrite decide_True by lia.
  apply lookup_lt_is_Some. lia.
Qed.

(** [find_loop] either sees every indexed bit set, makes every call and
    answers [True], or stops at the first clear bit, having made the
    calls up to that seed, and answers [False]; it never changes the
    instance. *)
Lemma find_loop_sized key f : sized f → ∀ l,
  (Forall (λ i, bit f (index f key i) = Some true) l ∧
   find_loop key l f = Some (true, f, seed_calls key l))
  ∨ (∃ l1 i l2, l = l1 ++ i :: l2 ∧
       Forall (λ j, bit f (index f key j) = Some true) l1 ∧
       bit f (index f key i) = Some false ∧
       find_loop key l f = Some (false, f, seed_calls key (l1 ++ [i]))).
Proof.
  intros Hf. induction l as [|i l IH].
  - left. split; [constructor|reflexivity].
  - destruct (bit_defined f (index f key i) Hf (index_range f key i Hf))
      as [b Hb].
    assert (Hstep : find_loop key (i :: l) f
              = if b then
                  match find_loop key l f with
                  | Some (r, f', c) => Some (r, f', (key, i) :: c)
                  | None => None
                  end
                else Some (false, f, [(key, i)])).
    { simpl. unfold bind, call_BitHash, gets, lift, Py.mod_. simpl.
      destruct Hf as [Hn _]. rewrite decide_False by lia. simpl.
      unfold bit, index in Hb. rewrite Hb. simpl.
      destruct b; [|reflexivity].
      destruct (find_loop key l f) as [[[r f'] c]|]; reflexivity. }
    destruct b.
    + destruct IH as [[Hall Hl]|(l1 & j & l2 & -> & Hall & Hj & Hl)].
      * left. split; [constructor; assumption|].
        rewrite Hstep, Hl. reflexivity.
      * right. exists (i :: l1), j, l2. repeat split; try assumption.
        -- constructor; assumption.
        -- rewrite Hstep, Hl. reflexivity.
    + right. exists [], i, l. repeat split; try assumption; constructor.
Qed.

(** **** What holds of any instance, sized or not *)

Lemma insert_body_inv key i f u f' cs :
  insert_body key i f = Some (u, f', cs) → f' = mark key f i.
Proof.
  unfold insert_body, bind, call_BitHash, gets, lift, modify, Py.mod_. simpl.
  destruct (decide (numBits f = 0)); simpl; [discriminate|].
  unfold BitVector.setitem.
  destruct (decide (0 ≤ BitHash key i `mod` numBits f
                      < Z.of_nat (length (bitVector f)))); simpl;
    [|discriminate].
  intros [= <- <- <-]. reflexivity.
Qed.

Lemma for_insert_body_inv key l : ∀ f u f' cs,
  for_ l (insert_body key) f = Some (u, f', cs) → f' = foldl (mark key) f l.
Proof.
  induction l as [|i l IH]; intros f u f' cs; simpl.
  - intros [= <- <- <-]. reflexivity.
  - unfold bind.
    destruct (insert_body key i f) as [[[u1 f1] c1]|] eqn:H1; [|discriminate].
    destruct (for_ l (insert_body key) f1) as [[[u2 f2] c2]|] eqn:H2;
      [|discriminate].
    intros [= <- <- <-].
    apply insert_body_inv in H1 as ->. eapply IH, H2.
Qed.

Lemma insert_inv key f u f' cs :
  insert key f = Some (u, f', cs) → f' = inserted f key.
Proof.
  unfold insert, bind, gets. simpl.
  destruct (for_ _ _ f) as [[[u1 f1] c1]|] eqn:H1; [|discriminate].
  intros [= <- <- <-]. eapply for_insert_body_inv, H1.
Qed.

Lemma find_loop_inv key l : ∀ f b f' cs,
  find_loop key l f = Some (b, f', cs) → f' = f.
Proof.
  induction l as [|i l IH]; intros f b f' cs; simpl.
  - intros [= <- <- <-]. reflexivity.
  - unfold bind, call_BitHash, gets, lift, Py.mod_. simpl.
    destruct (decide (numBits f = 0)); simpl; [discriminate|].
    destruct (BitVector.getitem _ _) as [[|]|]; simpl; [..|discriminate].
    + destruct (find_loop key l f) as [[[b1 f1] c1]|] eqn:H1; [|discriminate].
      intros [= <- <- <-]. eapply IH, H1.
    + intros [= <- <- <-]. reflexivity.
Qed.

Lemma find_inv key f b f' cs : find key f = Some (b, f', cs) → f' = f.
Proof.
  unfold find, bind, gets. simpl.
  destruct (find_loop _ _ f) as [[[b1 f1] c1]|] eqn:H1; [|discriminate].
  intros [= <- <- <-]. eapply find_loop_inv, H1.
Qed.

Lemma numBitsSet_run f : numBitsSet f = Some (bitsSet f, f, []).
Proof. reflexivity. Qed.

Lemma falsePositiveRate_inv f r f' cs :
  falsePositiveRate f = Some (r, f', cs) → f' = f ∧ cs = [].
Proof.
  unfold falsePositiveRate, bind, numBitsSet, gets, lift. simpl.
  destruct (Py.truediv _ _); simpl; [|discriminate].
  destruct (Py.pow _ _); simpl; [|discriminate].
  intros [= <- <- <-]. split; reflexivity.
Qed.

(** **** Sequences of insertions *)

Lemma foldl_inserted_sized keys : ∀ f, sized f → sized (foldl inserted f keys).
Proof.
  induction keys as [|k keys IH]; intros f Hf; simpl; [exact Hf|].
  apply IH, inserted_sized, Hf.
Qed.

Lemma foldl_inserted_fields keys : ∀ f,
  numKeys (foldl inserted f keys) = numKeys f ∧
  numHashes (foldl inserted f keys) = numHashes f ∧
  maxFalsePositive (foldl inserted f keys) = maxFalsePositive f ∧
  numBits (foldl inserted f keys) = numBits f ∧
  bitsSet (foldl inserted f keys)
  = bitsSet f + Z.of_nat (length keys) * Z.max 0 (numHashes f - 1).
Proof.
  induction keys as [|k keys IH]; intros f.
  - simpl. repeat split; lia.
  - cbn [foldl length].
    destruct (IH (inserted f k)) as (-> & -> & -> & -> & ->).
    destruct (inserted_fields f k) as (-> & -> & -> & -> & ->).
    rewrite length_seeds. repeat split; lia.
Qed.

Lemma foldl_inserted_kept keys : ∀ f, bits_kept f (foldl inserted f keys).
Proof.
  induction keys as [|k keys IH]; intros f; simpl; [apply bits_kept_refl|].
  eapply bits_kept_trans; [apply inserted_kept|apply IH].
Qed.

Lemma insert_all_sized keys : ∀ f,
  sized f → ∃ cs, insert_all keys f = Some (tt, foldl inserted f keys, cs).
Proof.
  induction keys as [|k keys IH]; intros f Hf.
  - exists []. reflexivity.
  - destruct (IH _ (inserted_sized f k Hf)) as [cs Hcs].
    exists (seed_calls k (seeds f) ++ cs).
    unfold insert_all in *. simpl. unfold bind.
    rewrite (insert_sized _ _ Hf), Hcs. reflexivity.
Qed.

Lemma foldl_inserted_app keys1 keys2 f :
  foldl inserted f (keys1 ++ keys2)
  = foldl inserted (foldl inserted f keys1) keys2.
Proof. apply foldl_app. Qed.

(** **** Seeds *)

Lemma range_split lo hi l1 i l2 :
  Py.range lo hi = l1 ++ i :: l2 →
  lo ≤ i < hi ∧ l1 = Py.range lo i ∧ l1 ++ [i] = Py.range lo (i + 1).
Proof.
  unfold Py.range. intros H.
  assert (Hlen : Z.to_nat (hi - lo) = (length l1 + S (length l2))%nat).
  { rewrite <- (length_seqZ lo), H, length_app. reflexivity. }
  set (n1 := Z.of_nat (length l1)).
  assert (Hsplit : seqZ lo (hi - lo)
                   = seqZ lo n1 ++ seqZ (lo + n1) (hi - lo - n1)).
  { rewrite <- seqZ_app by lia. f_equal. lia. }
  rewrite Hsplit in H.
  apply app_inj_1 in H as [H1 H2];
    [|rewrite length_seqZ; unfold n1; lia].
  rewrite seqZ_cons in H2 by lia. injection H2 as Hi _.
  assert (Hn1 : n1 = i - lo) by lia.
  split; [lia|]. split.
  - rewrite <- Hn1. symmetry. exact H1.
  - replace (i + 1 - lo) with (n1 + 1) by lia.
    rewrite seqZ_app by lia. rewrite H1.
    replace (lo + n1) with i by lia. reflexivity.
Qed.

Lemma find_unfold key f : find key f = find_loop key (seeds f) f.
Proof.
  unfold find, bind, gets. simpl. fold (seeds f).
  destruct (find_loop key (seeds f) f) as [[[b f'] cs]|]; reflexivity.
Qed.


(** A key that was inserted is found, whatever was inserted after it. *)
Lemma find_after_insert f key post :
  sized f →
  ∃ cs, find key (foldl inserted (inserted f key) post)
        = Some (true, foldl inserted (inserted f key) post, cs).
Proof.
  intros Hf. set (f2 := inserted f key). set (f3 := foldl inserted f2 post).
  assert (H2 : sized f2) by (apply inserted_sized, Hf).
  assert (H3 : sized f3) by (apply foldl_inserted_sized, H2).
  destruct (inserted_fields f key) as (_ & Hd2 & _ & Hn2 & _).
  destruct (foldl_inserted_fields post f2) as (_ & Hd3 & _ & Hn3 & _).
  fold f2 in Hd2, Hn2. fold f3 in Hd3, Hn3.
  rewrite find_unfold.
  destruct (find_loop_sized key f3 H3 (seeds f3))
    as [[_ Hfind]|(l1 & i & l2 & Hl & _ & Hi & _)].
  - eexists. exact Hfind.
  - exfalso.
    assert (Hin : i ∈ seeds f).
    { unfold seeds in *. rewrite <- Hd2, <- Hd3, Hl.
      apply elem_of_app. right. apply elem_of_cons. left. reflexivity. }
    pose proof (foldl_mark_set key (seeds f) f i Hf Hin) as Hset.
    fold (inserted f key) in Hset. fold f2 in Hset.
    destruct (foldl_inserted_kept post f2) as [_ Hkept].
    apply Hkept in Hset. fold f3 in Hset.
    unfold bit, BitVector.getitem in Hi.
    pose proof (index_range f3 key i H3) as Hr.
    rewrite decide_True in Hi by lia.
    unfold index in Hi, Hset. rewrite Hn3, Hn2 in Hi.
    congruence.
Qed.

(** **** The rate on a well-formed instance *)

Lemma falsePositiveRate_well_formed f :
  well_formed f →
  falsePositiveRate f
  = Some (((1 - IZR (numBits f - bitsSet f) / IZR (numBits f))
             ^ Z.to_nat (numHashes f))%R, f, []).
Proof.
  intros (Hd & Hn & _ & Hc).
  assert (Hn' : (0 < IZR (numBits f))%R) by (apply IZR_lt; lia).
  assert (Hd' : (0 < IZR (numHashes f))%R) by (apply IZR_lt; lia).
  assert (Hk : INR (Z.to_nat (numHashes f)) = IZR (numHashes f))
    by (rewrite INR_IZR_INZ, Z2Nat.id by lia; reflexivity).
  unfold falsePositiveRate, bind, numBitsSet, gets, lift. simpl.
  rewrite truediv_defined by lra. simpl.
  set (x := (1 - IZR (numBits f - bitsSet f) / IZR (numBits f))%R).
  assert (Hx : x = (IZR (bitsSet f) / IZR (numBits f))%R).
  { unfold x. rewrite minus_IZR. field. lra. }
  destruct (decide (bitsSet f = 0)) as [H0|H0].
  - assert (Hx0 : x = 0%R).
    { rewrite Hx, H0. unfold Rdiv. apply Rmult_0_l. }
    rewrite Hx0, pow_zero_base by lra.
    rewrite pow_i by lia. reflexivity.
  - assert (Hxp : (0 < x)%R).
    { rewrite Hx. apply Rdiv_lt_0_compat; [apply IZR_lt; lia|lra]. }
    rewrite pow_positive by exact Hxp.
    rewrite <- Hk, Rpower_pow by exact Hxp. reflexivity.
Qed.

(** **** Well-formedness is kept *)

Lemma inserted_well_formed f key : well_formed f → well_formed (inserted f key).
Proof.
  intros Hf. pose proof (inserted_sized f key (well_formed_sized f Hf)) as [H1 H2].
  destruct (inserted_fields f key) as (_ & Hd & _ & _ & Hc).
  destruct Hf as (? & ? & ? & ?).
  unfold well_formed. rewrite Hd, Hc. repeat split; try assumption; lia.
Qed.

Lemma foldl_inserted_well_formed keys : ∀ f,
  well_formed f → well_formed (foldl inserted f keys).
Proof.
  induction keys as [|k keys IH]; intros f Hf; simpl; [exact Hf|].
  apply IH, inserted_well_formed, Hf.
Qed.

Lemma find_total key f : sized f → ∃ b cs, find key f = Some (b, f, cs).
Proof.
  intros Hf. rewrite find_unfold.
  destruct (find_loop_sized key f Hf (seeds f))
    as [[_ H]|(l1 & i & l2 & _ & _ & _ & H)]; eauto.
Qed.

(** **** Sequences of operations *)

Lemma for_app {A} (body : A → @M Key unit) (xs : list A) :
  ∀ (ys : list A) f f1 f2 cs1 cs2,
  for_ xs body f = Some (tt, f1, cs1) →
  for_ ys body f1 = Some (tt, f2, cs2) →
  for_ (xs ++ ys) body f = Some (tt, f2, cs1 ++ cs2).
Proof.
  induction xs as [|x xs IH]; intros ys f f1 f2 cs1 cs2; simpl.
  - intros [= <- <-] H2. exact H2.
  - unfold bind. destruct (body x f) as [[[u fx] cx]|]; [|discriminate].
    destruct (for_ xs body fx) as [[[[] f1'] c1]|] eqn:H1; [|discriminate].
    intros [= <- <-] H2.
    rewrite (IH _ _ _ _ _ _ H1 H2), app_assoc. reflexivity.
Qed.

Lemma do_op_well_formed o f :
  well_formed f →
  ∃ f' cs, do_op o f = Some (tt, f', cs) ∧ well_formed f' ∧
           bits_kept f f' ∧ bitsSet f ≤ bitsSet f'.
Proof.
  intros Hf. pose proof (well_formed_sized f Hf) as Hs.
  destruct o as [key|key| |]; simpl.
  - exists (inserted f key), (seed_calls key (seeds f)).
    split; [apply insert_sized, Hs|].
    split; [apply inserted_well_formed, Hf|].
    split; [apply inserted_kept|].
    destruct (inserted_fields f key) as (_ & _ & _ & _ & ->). lia.
  - destruct (find_total key f Hs) as (b & cs & H).
    exists f, (cs ++ []). unfold bind. rewrite H.
    split; [reflexivity|]. split; [exact Hf|].
    split; [apply bits_kept_refl|lia].
  - exists f, []. split; [reflexivity|]. split; [exact Hf|].
    split; [apply bits_kept_refl|lia].
  - exists f, []. unfold bind. rewrite (falsePositiveRate_well_formed f Hf).
    split; [reflexivity|]. split; [exact Hf|].
    split; [apply bits_kept_refl|lia].
Qed.

Lemma run_ops_well_formed ops : ∀ f,
  well_formed f →
  ∃ f' cs, run_ops ops f = Some (tt, f', cs) ∧ well_formed f' ∧
           bits_kept f f' ∧ bitsSet f ≤ bitsSet f'.
Proof.
  induction ops as [|o ops IH]; intros f Hf.
  - exists f, []. split; [reflexivity|]. split; [exact Hf|].
    split; [apply bits_kept_refl|lia].
  - destruct (do_op_well_formed o f Hf) as (f1 & c1 & H1 & Hw1 & Hk1 & Hc1).
    destruct (IH f1 Hw1) as (f2 & c2 & H2 & Hw2 & Hk2 & Hc2).
    exists f2, (c1 ++ c2).
    split; [|split; [exact Hw2|split; [eapply bits_kept_trans; eassumption|lia]]].
    unfold run_ops in *. simpl. unfold bind. rewrite H1, H2. reflexivity.
Qed.

(** ** The claims of the specification *)

(** C1 (no false negatives).  On an instance built from valid parameters,
    once [insert(key)] has run, after any insertions before it and any
    after it, every insertion has returned and [find(key)] returns [True]. *)
Theorem no_false_negatives n d p f0 (before after : list Key) key :
  valid_params n d p →
  init n d p = Some f0 →
  ∃ f cs cs',
    insert_all (before ++ key :: after) f0 = Some (tt, f, cs) ∧
    find key f = Some (true, f, cs').
Proof.
  intros Hv H0. destruct (init_well_formed n d p f0 Hv H0) as (Hw & _).
  apply well_formed_sized in Hw.
  destruct (insert_all_sized (before ++ key :: after) f0 Hw) as [cs Hcs].
  set (f1 := foldl inserted f0 before).
  assert (H1 : sized f1) by (apply foldl_inserted_sized, Hw).
  destruct (find_after_insert f1 key after H1) as [cs' Hcs'].
  exists (foldl inserted (inserted f1 key) after), cs, cs'.
  split; [|exact Hcs'].
  rewrite Hcs, foldl_inserted_app. reflexivity.
Qed.


(** C4 (exact fill increment).  One [insert] raises the value of
    [numBitsSet()] by exactly [numHashes - 1], whatever the hash values
    and whatever bits were set before; over any sequence of insertions
    the value grows by that much per call, so it never decreases from one
    point of the sequence to a later one. *)
Theorem exact_fill_increment f key (keys1 keys2 : list Key) :
  well_formed f →
  numBitsSet f = Some (bitsSet f, f, []) ∧
  (∃ f' cs,
     insert key f = Some (tt, f', cs) ∧
     numBitsSet f' = Some (bitsSet f + (numHashes f - 1), f', [])) ∧
  (∃ f1 f2 cs1 cs2 c1 c2,
     insert_all keys1 f = Some (tt, f1, cs1) ∧
     insert_all keys2 f1 = Some (tt, f2, cs2) ∧
     numBitsSet f1 = Some (c1, f1, []) ∧
     numBitsSet f2 = Some (c2, f2, []) ∧
     c1 = bitsSet f + Z.of_nat (length keys1) * (numHashes f - 1) ∧
     c2 = c1 + Z.of_nat (length keys2) * (numHashes f - 1) ∧
     bitsSet f ≤ c1 ≤ c2).
Proof.
  intros Hw. pose proof (well_formed_sized f Hw) as Hs.
  split; [reflexivity|]. split.
  - exists (inserted f key), (seed_calls key (seeds f)).
    split; [apply insert_sized, Hs|].
    rewrite numBitsSet_run.
    destruct (inserted_fields f key) as (_ & _ & _ & _ & ->).
    rewrite length_seeds. destruct Hw as (Hd & _).
    rewrite Z.max_r by lia. reflexivity.
  - set (f1 := foldl inserted f keys1).
    assert (Hs1 : sized f1) by (apply foldl_inserted_sized, Hs).
    destruct (insert_all_sized keys1 f Hs) as [cs1 H1].
    destruct (insert_all_sized keys2 f1 Hs1) as [cs2 H2].
    destruct (foldl_inserted_fields keys2 f1) as (_ & _ & _ & _ & Hc2).
    destruct (foldl_inserted_fields keys1 f) as (_ & Hd1 & _ & _ & Hc1).
    fold f1 in Hd1, Hc1. destruct Hw as (Hd & _).
    rewrite Hd1 in Hc2. rewrite Z.max_r in Hc1, Hc2 by lia.
    exists f1, (foldl inserted f1 keys2), cs1, cs2.
    exists (bitsSet f1), (bitsSet (foldl inserted f1 keys2)).
    split; [exact H1|]. split; [exact H2|].
    split; [reflexivity|]. split; [reflexivity|].
    split; [exact Hc1|]. split; [exact Hc2|]. nia.
Qed.

(** C5 (membership query contract).  [find(key)] returns, and leaves the
    instance as it was.  It returns [True] exactly when every bit at
    [BitHash(key, i) % numBits], for the seeds [i] of [insert], is set;
    it returns [False] exactly when one of them is clear, and then it has
    returned at the first such seed: the bits of all earlier seeds are
    set and no call was made for a later one. *)
Theorem find_contract f key :
  well_formed f →
  ∃ b cs,
    find key f = Some (b, f, cs) ∧
    (b = true ↔
     ∀ i, 1 ≤ i < numHashes f → bit f (index f key i) = Some true) ∧
    (b = false ↔
     ∃ i, 1 ≤ i < numHashes f ∧ bit f (index f key i) = Some false) ∧
    (b = false →
     ∃ i, 1 ≤ i < numHashes f ∧
          bit f (index f key i) = Some false ∧
          (∀ j, 1 ≤ j < i → bit f (index f key j) = Some true) ∧
          cs = seed_calls key (Py.range 1 (i + 1))).
Proof.
  intros Hw. pose proof (well_formed_sized f Hw) as Hs.
  rewrite find_unfold.
  destruct (find_loop_sized key f Hs (seeds f))
    as [[Hall H]|(l1 & i & l2 & Hl & Hall & Hi & H)].
  - exists true, (seed_calls key (seeds f)). split; [exact H|].
    rewrite Forall_forall in Hall.
    split; [split; [|reflexivity]|].
    { intros _ i Hi. apply Hall, elem_of_seeds, Hi. }
    split; [|discriminate].
    split; [discriminate|]. intros (i & Hi & Hclear). exfalso.
    apply elem_of_seeds in Hi. apply Hall in Hi. congruence.
  - exists false, (seed_calls key (l1 ++ [i])). split; [exact H|].
    destruct (range_split _ _ _ _ _ Hl) as (Hi' & Hl1 & Hl1i).
    assert (Hwit : ∃ i0, 1 ≤ i0 < numHashes f ∧
              bit f (index f key i0) = Some false ∧
              (∀ j, 1 ≤ j < i0 → bit f (index f key j) = Some true) ∧
              seed_calls key (l1 ++ [i]) = seed_calls key (Py.range 1 (i0 + 1))).
    { exists i. split; [exact Hi'|]. split; [exact Hi|].
      split; [|rewrite Hl1i; reflexivity].
      intros j Hj. rewrite Forall_forall in Hall. apply Hall.
      rewrite Hl1. unfold Py.range. apply elem_of_seqZ. lia. }
    split; [split; [discriminate|]|].
    { intros Hset. exfalso. specialize (Hset i Hi'). congruence. }
    split; [|intros _; exact Hwit].
    split; [|reflexivity]. intros _.
    destruct Hwit as (i0 & ? & ? & _). eauto.
Qed.

(** C6 (monotone state).  Take any sequence of [insert], [find],
    [numBitsSet] and [falsePositiveRate] calls on a well-formed instance,
    any point it reaches and any later point it reaches: no bit has been
    cleared in between, the vector has kept its length, and the counter,
    which is never negative, has not decreased.  A sequence without
    [falsePositiveRate], the one method that computes with floats, always
    runs to its end. *)
Theorem monotone_state f (ops1 ops2 : list (@Op Key)) :
  well_formed f →
  (∀ u1 f1 cs1 u2 f2 cs2,
     run_ops ops1 f = Some (u1, f1, cs1) →
     run_ops ops2 f1 = Some (u2, f2, cs2) →
     run_ops (ops1 ++ ops2) f = Some (tt, f2, cs1 ++ cs2) ∧
     well_formed f1 ∧ well_formed f2 ∧
     bits_kept f f1 ∧ bits_kept f1 f2 ∧
     0 ≤ bitsSet f ≤ bitsSet f1 ∧ bitsSet f1 ≤ bitsSet f2) ∧
  (OpFalsePositiveRate ∉ ops1 ++ ops2 →
   ∃ f1 f2 cs1 cs2,
     run_ops ops1 f = Some (tt, f1, cs1) ∧
     run_ops ops2 f1 = Some (tt, f2, cs2)).
Proof.
  intros Hw.
  destruct (run_ops_well_formed ops1 f Hw) as (g1 & c1 & G1 & Hw1 & Hk1 & Hc1).
  destruct (run_ops_well_formed ops2 g1 Hw1) as (g2 & c2 & G2 & Hw2 & Hk2 & Hc2).
  split.
  - intros [] f1 cs1 [] f2 cs2 H1 H2.
    rewrite G1 in H1. injection H1 as <- <-.
    rewrite G2 in H2. injection H2 as <- <-.
    split; [exact (for_app _ _ _ _ _ _ _ _ G1 G2)|].
    split; [exact Hw1|]. split; [exact Hw2|].
    split; [exact Hk1|]. split; [exact Hk2|].
    destruct Hw as (_ & _ & _ & ?). lia.
  - intros _. exists g1, g2, c1, c2. split; [exact G1|exact G2].
Qed.

(** C7 (fresh filter).  On the instance the constructor returns for
    valid parameters, before any insertion, [numBitsSet()] returns 0 and
    [falsePositiveRate()] returns 0: the fraction of zero bits is 1, and
    [(1 - 1) ** numHashes] is 0 because [numHashes >= 1]. *)
Theorem fresh_filter n d p f :
  valid_params n d p →
  init n d p = Some f →
  numBitsSet f = Some (0, f, []) ∧
  (IZR (numBits f - bitsSet f) / IZR (numBits f))%R = 1%R ∧
  falsePositiveRate f = Some (0%R, f, []).
Proof.
  intros Hv H0. destruct (init_well_formed n d p f Hv H0) as (Hw & Hd & Hc).
  assert (Hn : (0 < IZR (numBits f))%R)
    by (apply IZR_lt; destruct Hw as (_ & ? & _); lia).
  split; [rewrite numBitsSet_run, Hc; reflexivity|].
  assert (Hone : (IZR (numBits f - bitsSet f) / IZR (numBits f))%R = 1%R).
  { rewrite Hc, Z.sub_0_r. field. lra. }
  split; [exact Hone|].
  rewrite (falsePositiveRate_well_formed f Hw), Hone, Rminus_diag.
  rewrite pow_i; [reflexivity|]. destruct Hw as (? & _). lia.
Qed.

(** C8 (frame conditions).  Whatever [falsePositiveRate], [numBitsSet]
    and [find] return, they leave every attribute as it was, and what
    [insert] leaves differs at most in the bit vector and the counter;
    [falsePositiveRate] and [numBitsSet] make no [BitHash] call.  On a
    well-formed instance [numBitsSet], [find] and [insert] always return. *)
Theorem frame_conditions f key :
  (∀ r f' cs, falsePositiveRate f = Some (r, f', cs) → f' = f ∧ cs = []) ∧
  (∀ c f' cs, numBitsSet f = Some (c, f', cs) → f' = f ∧ cs = []) ∧
  (∀ b f' cs, find key f = Some (b, f', cs) → f' = f) ∧
  (∀ u f' cs, insert key f = Some (u, f', cs) →
     numBits f' = numBits f ∧ numKeys f' = numKeys f ∧
     numHashes f' = numHashes f ∧
     maxFalsePositive f' = maxFalsePositive f) ∧
  (well_formed f →
     numBitsSet f = Some (bitsSet f, f, []) ∧
     (∃ b cs, find key f = Some (b, f, cs)) ∧
     (∃ f' cs, insert key f = Some (tt, f', cs))).
Proof.
  split; [intros r f' cs H; apply falsePositiveRate_inv in H; exact H|].
  split; [intros c f' cs [= _ <- <-]; split; reflexivity|].
  split; [intros b f' cs H; eapply find_inv, H|].
  split.
  - intros u f' cs H. apply insert_inv in H as ->.
    destruct (inserted_fields f key) as (-> & -> & -> & -> & _). tauto.
  - intros Hw. pose proof (well_formed_sized f Hw) as Hs.
    split; [reflexivity|].
    split; [apply find_total, Hs|].
    eexists _, _. apply insert_sized, Hs.
Qed.

(** C9 (one configured hash).  With [numHashes = 1], which is a valid
    parameter, the seed range is empty: on the constructed instance any
    sequence of insertions makes no [BitHash] call and leaves the instance
    as it was, so [numBitsSet()] stays 0, and [find] returns [True] for
    every key, inserted or not. *)
Theorem one_hash_degenerate n p f0 (keys : list Key) key :
  valid_params n 1 p →
  init n 1 p = Some f0 →
  Py.range 1 (numHashes f0) = [] ∧
  insert_all keys f0 = Some (tt, f0, []) ∧
  numBitsSet f0 = Some (0, f0, []) ∧
  find key f0 = Some (true, f0, []).
Proof.
  intros Hv H0. destruct (init_well_formed n 1 p f0 Hv H0) as (_ & Hd & Hc).
  assert (Hins : ∀ k, insert k f0 = Some (tt, f0, [])).
  { intros k. unfold insert, bind, gets. simpl. rewrite Hd. reflexivity. }
  split; [rewrite Hd; reflexivity|].
  split.
  - induction keys as [|k keys IH]; [reflexivity|].
    unfold insert_all in *. simpl. unfold bind. rewrite Hins, IH. reflexivity.
  - split; [rewrite numBitsSet_run, Hc; reflexivity|].
    unfold find, bind, gets. simpl. rewrite Hd. reflexivity.
Qed.

(** C10 (the rate is not bounded by 1).  There are valid parameters and a
    finite sequence of insertions after which the counter exceeds the
    number of bits, the computed fraction of zero bits is negative and
    [falsePositiveRate()] returns more than 1: [BloomFilter(1, 2, 0.25)]
    has 4 bits, and five insertions of any key count 5. *)
Theorem rate_exceeds_one (key : Key) :
  ∃ n d p f0 keys f cs r,
    valid_params n d p ∧
    init n d p = Some f0 ∧
    insert_all keys f0 = Some (tt, f, cs) ∧
    numBits f < bitsSet f ∧
    (IZR (numBits f - bitsSet f) / IZR (numBits f) < 0)%R ∧
    falsePositiveRate f = Some (r, f, []) ∧
    (1 < r)%R.
Proof.
  assert (Hv : valid_params 1 2 ((1 / 2) ^ 2)).
  { unfold valid_params. split; [lia|]. split; [lia|]. simpl. lra. }
  pose proof (init_fresh_half 2 ltac:(lia)) as H0.
  destruct (init_well_formed _ _ _ _ Hv H0) as (Hw & _).
  set (keys := replicate 5 key).
  destruct (insert_all_sized keys _ (well_formed_sized _ Hw)) as [cs Hcs].
  pose proof (foldl_inserted_well_formed keys _ Hw) as Hw'.
  destruct (foldl_inserted_fields keys (fresh_half 2))
    as (_ & Hd & _ & Hn & Hc).
  set (f := foldl inserted (fresh_half 2) keys) in *.
  change (numHashes f = 2) in Hd. change (numBits f = 4) in Hn.
  change (bitsSet f = 5) in Hc.
  exists 1, 2, ((1 / 2) ^ 2)%R, (fresh_half 2), keys, f, cs.
  eexists. split; [exact Hv|]. split; [exact H0|]. split; [exact Hcs|].
  split; [lia|].
  split; [rewrite Hn, Hc; change (4 - 5) with (-1); lra|].
  split; [apply falsePositiveRate_well_formed, Hw'|].
  rewrite Hn, Hc, Hd. change (4 - 5) with (-1).
  change (Z.to_nat 2) with 2%nat. cbn [pow]. lra.
Qed.

End Properties.

(** ** The statements at concrete instances *)

Lemma fresh_half_valid : valid_params 1 3 ((1 / 2) ^ 3).
Proof.
  unfold valid_params. split; [lia|]. split; [lia|]. simpl. lra.
Qed.

Lemma fresh_half_well_formed : well_formed (fresh_half 3).
Proof. unfold well_formed. simpl. lia. Qed.

(** The methods run: [insert(7)] on the fresh [BloomFilter(1, 3, 0.125)]
    hashes with the seeds 1 and 2 and sets the bits 2 and 3; [find(7)] then
    reads both, and [find(8)] stops at its second seed. *)
Example insert_then_find :
  ∃ f, insert toy_hash 7 (fresh_half 3) = Some (tt, f, [(7, 1); (7, 2)]) ∧
       bitVector f = [false; false; true; true; false; false] ∧
       bitsSet f = 2 ∧
       find toy_hash 7 f = Some (true, f, [(7, 1); (7, 2)]) ∧
       find toy_hash 8 f = Some (false, f, [(8, 1); (8, 2)]).
Proof. eexists. repeat split; reflexivity. Qed.

(** A second [insert(7)] writes bits that are already set and still counts
    them: the counter is 4 with two bits set. *)
Example insert_twice_counts_twice :
  ∃ f cs, insert_all toy_hash [7; 7] (fresh_half 3) = Some (tt, f, cs) ∧
          bitVector f = [false; false; true; true; false; false] ∧
          bitsSet f = 4.
Proof. eexists _, _. repeat split; reflexivity. Qed.

(** [BloomFilter(1, 3, 0.125)] after [insert(3)], [insert(7)], [insert(11)]
    finds 7. *)
Lemma no_false_negatives_witness :
  valid_params 1 3 ((1 / 2) ^ 3) ∧
  init 1 3 ((1 / 2) ^ 3) = Some (fresh_half 3) ∧
  ∃ f cs cs',
    insert_all toy_hash ([3] ++ 7 :: [11]) (fresh_half 3) = Some (tt, f, cs) ∧
    find toy_hash 7 f = Some (true, f, cs').
Proof.
  split; [exact fresh_half_valid|].
  split; [exact (init_fresh_half 3 ltac:(lia))|].
  apply (no_false_negatives toy_hash 1 3 ((1 / 2) ^ 3)%R (fresh_half 3) [3] [11] 7).
  - exact fresh_half_valid.
  - exact (init_fresh_half 3 ltac:(lia)).
Defined.



Lemma exact_fill_increment_witness :
  well_formed (fresh_half 3) ∧
  ∃ f' cs,
    insert toy_hash 7 (fresh_half 3) = Some (tt, f', cs) ∧
    @numBitsSet Z f' = Some (0 + (3 - 1), f', []).
Proof.
  split; [exact fresh_half_well_formed|].
  exact (proj1 (proj2 (exact_fill_increment toy_hash (fresh_half 3) 7 [3] [11]
                         fresh_half_well_formed))).
Defined.

Lemma find_contract_witness :
  well_formed (fresh_half 3) ∧
  ∃ b cs, find toy_hash 7 (fresh_half 3) = Some (b, fresh_half 3, cs).
Proof.
  split; [exact fresh_half_well_formed|].
  destruct (find_contract toy_hash (fresh_half 3) 7 fresh_half_well_formed)
    as (b & cs & Hfind & _).
  exists b, cs. exact Hfind.
Defined.

Lemma monotone_state_witness :
  well_formed (fresh_half 3) ∧
  ∃ f1 f2 cs1 cs2,
    run_ops toy_hash [OpInsert 7; OpFind 7] (fresh_half 3) = Some (tt, f1, cs1) ∧
    run_ops toy_hash [OpInsert 3; OpNumBitsSet] f1 = Some (tt, f2, cs2) ∧
    bits_kept f1 f2 ∧ 0 ≤ bitsSet f1 ≤ bitsSet f2.
Proof.
  split; [exact fresh_half_well_formed|].
  destruct (monotone_state toy_hash (fresh_half 3) [OpInsert 7; OpFind 7]
              [OpInsert 3; OpNumBitsSet] fresh_half_well_formed)
    as [Hinv Htotal].
  destruct Htotal as (f1 & f2 & cs1 & cs2 & H1 & H2).
  { intros H. repeat (apply elem_of_cons in H as [H|H]; [discriminate|]).
    inversion H. }
  destruct (Hinv _ _ _ _ _ _ H1 H2) as (_ & _ & _ & _ & Hk & Hc & Hc').
  exists f1, f2, cs1, cs2.
  split; [exact H1|]. split; [exact H2|]. split; [exact Hk|]. lia.
Defined.

Lemma fresh_filter_witness :
  valid_params 1 3 ((1 / 2) ^ 3) ∧
  init 1 3 ((1 / 2) ^ 3) = Some (fresh_half 3) ∧
  @numBitsSet Z (fresh_half 3) = Some (0, fresh_half 3, []) ∧
  @falsePositiveRate Z (fresh_half 3) = Some (0%R, fresh_half 3, []).
Proof.
  split; [exact fresh_half_valid|].
  split; [exact (init_fresh_half 3 ltac:(lia))|].
  destruct (@fresh_filter Z 1 3 ((1 / 2) ^ 3)%R (fresh_half 3) fresh_half_valid
              (init_fresh_half 3 ltac:(lia))) as (Hc & _ & Hr).
  split; [exact Hc|exact Hr].
Defined.

Lemma frame_conditions_witness :
  well_formed (fresh_half 3) ∧
  (∃ b cs, find toy_hash 7 (fresh_half 3) = Some (b, fresh_half 3, cs)) ∧
  (∃ f' cs, insert toy_hash 7 (fresh_half 3) = Some (tt, f', cs) ∧
            numBits f' = 6 ∧ numKeys f' = 1 ∧ numHashes f' = 3).
Proof.
  split; [exact fresh_half_well_formed|].
  destruct (frame_conditions toy_hash (fresh_half 3) 7)
    as (_ & _ & _ & Hframe & Htotal).
  destruct (Htotal fresh_half_well_formed) as (_ & Hfind & f' & cs & Hins).
  split; [exact Hfind|].
  exists f', cs. split; [exact Hins|].
  destruct (Hframe _ _ _ Hins) as (Hn & Hk & Hd & _).
  rewrite Hn, Hk, Hd. repeat split; reflexivity.
Defined.

Lemma fresh_one_valid : valid_params 1 1 ((1 / 2) ^ 1).
Proof.
  unfold valid_params. split; [lia|]. split; [lia|]. simpl. lra.
Qed.

Lemma one_hash_degenerate_witness :
  valid_params 1 1 ((1 / 2) ^ 1) ∧
  init 1 1 ((1 / 2) ^ 1) = Some (fresh_half 1) ∧
  insert_all toy_hash [3; 7] (fresh_half 1) = Some (tt, fresh_half 1, []) ∧
  find toy_hash 11 (fresh_half 1) = Some (true, fresh_half 1, []).
Proof.
  split; [exact fresh_one_valid|].
  split; [exact (init_fresh_half 1 ltac:(lia))|].
  destruct (one_hash_degenerate toy_hash 1 ((1 / 2) ^ 1)%R (fresh_half 1)
              [3; 7] 11 fresh_one_valid (init_fresh_half 1 ltac:(lia)))
    as (_ & Hins & _ & Hfind).
  split; [exact Hins|exact Hfind].
Defined.

(** ** Further properties of the methods *)

Section More.

Context {Key : Type}.
Variable BitHash : Key → Z → Z.

Abbreviation insert := (insert BitHash).
Abbreviation find := (find BitHash).
Abbreviation find_loop := (find_loop BitHash).
Abbreviation index := (index BitHash).
Abbreviation mark := (mark BitHash).
Abbreviation inserted := (inserted BitHash).
Abbreviation insert_all := (insert_all BitHash).
Abbreviation numBitsSet := (@numBitsSet Key).
Abbreviation falsePositiveRate := (@falsePositiveRate Key).
Abbreviation do_op := (do_op BitHash).
Abbreviation run_ops := (run_ops BitHash).

Implicit Types (f : BloomFilter) (key : Key) (i : Z) (a : nat).

Lemma BloomFilter_eq f g :
  numKeys f = numKeys g → numHashes f = numHashes g →
  maxFalsePositive f = maxFalsePositive g → numBits f = numBits g →
  bitVector f = bitVector g → bitsSet f = bitsSet g → f = g.
Proof. destruct f, g. simpl. intros. subst. reflexivity. Qed.

(** Two bit vectors of one length with the same set bits are equal. *)
Lemma bits_eq (bv bv' : list bool) :
  length bv = length bv' →
  (∀ a, bv !! a = Some true ↔ bv' !! a = Some true) → bv = bv'.
Proof.
  intros Hlen H. apply list_eq. intros a. specialize (H a).
  destruct (bv !! a) as [b|] eqn:E, (bv' !! a) as [b'|] eqn:E'.
  - destruct b, b'; try reflexivity.
    + destruct H as [H _]. specialize (H eq_refl). discriminate.
    + destruct H as [_ H]. specialize (H eq_refl). discriminate.
  - apply lookup_lt_Some in E. apply lookup_ge_None in E'. lia.
  - apply lookup_ge_None in E. apply lookup_lt_Some in E'. lia.
  - reflexivity.
Qed.

Lemma bit_lookup f key i :
  sized f → bit f (index f key i) = bitVector f !! Z.to_nat (index f key i).
Proof.
  intros Hf. unfold bit, BitVector.getitem.
  pose proof (index_range BitHash f key i Hf). rewrite decide_True by lia.
  reflexivity.
Qed.

(** **** Which bits are set after insertions *)

Lemma mark_lookup key f i a :
  sized f →
  bitVector (mark key f i) !! a = Some true
  ↔ bitVector f !! a = Some true ∨ a = Z.to_nat (index f key i).
Proof.
  intros Hf. pose proof (index_range BitHash f key i Hf) as Hr.
  destruct Hf as [_ Hl]. unfold mark; simpl.
  destruct (decide (Z.to_nat (index f key i) = a)) as [<-|Hne].
  - rewrite list_lookup_insert_eq by lia. tauto.
  - rewrite list_lookup_insert_ne by exact Hne.
    split; [tauto|]. intros [H|H]; [exact H|congruence].
Qed.

Lemma foldl_mark_lookup key (l : list Z) a : ∀ f,
  sized f →
  bitVector (foldl (mark key) f l) !! a = Some true
  ↔ bitVector f !! a = Some true
    ∨ ∃ i, i ∈ l ∧ a = Z.to_nat (index f key i).
Proof.
  induction l as [|j l IH]; intros f Hf; simpl.
  - split; [tauto|]. intros [H|(i & Hi & _)]; [exact H|inversion Hi].
  - rewrite (IH _ (mark_sized BitHash key f j Hf)), (mark_lookup key f j a Hf).
    split.
    + intros [[H|H]|(i & Hi & H)]; [tauto| |].
      * right. exists j. split; [apply elem_of_cons; tauto|exact H].
      * right. exists i. split; [apply elem_of_cons; tauto|exact H].
    + intros [H|(i & Hi & H)]; [tauto|].
      apply elem_of_cons in Hi as [->|Hi]; [tauto|].
      right. exists i. split; [exact Hi|exact H].
Qed.

Lemma inserted_lookup f key a :
  sized f →
  bitVector (inserted f key) !! a = Some true
  ↔ bitVector f !! a = Some true
    ∨ ∃ i, 1 ≤ i < numHashes f ∧ a = Z.to_nat (index f key i).
Proof.
  intros Hf. unfold inserted. rewrite (foldl_mark_lookup key _ a f Hf).
  split; (intros [H|(i & Hi & H)]; [tauto|]); right; exists i;
    (split; [|exact H]); apply (elem_of_seeds f i); exact Hi.
Qed.

Lemma inserted_index f key key' i :
  index (inserted f key) key' i = index f key' i.
Proof.
  unfold index. destruct (inserted_fields BitHash f key) as (_ & _ & _ & -> & _).
  reflexivity.
Qed.

Lemma foldl_inserted_lookup (keys : list Key) a : ∀ f,
  sized f →
  bitVector (foldl inserted f keys) !! a = Some true
  ↔ bitVector f !! a = Some true
    ∨ ∃ k i, k ∈ keys ∧ 1 ≤ i < numHashes f ∧ a = Z.to_nat (index f k i).
Proof.
  induction keys as [|k keys IH]; intros f Hf; simpl.
  - split; [tauto|]. intros [H|(k & i & Hk & _)]; [exact H|inversion Hk].
  - rewrite (IH _ (inserted_sized BitHash f k Hf)), (inserted_lookup f k a Hf).
    destruct (inserted_fields BitHash f k) as (_ & Hd & _).
    split.
    + intros [[H|(i & Hi & H)]|(k' & i & Hk & Hi & H)]; [tauto| |].
      * right. exists k, i. split; [apply elem_of_cons; tauto|tauto].
      * right. exists k', i. rewrite inserted_index in H. rewrite Hd in Hi.
        split; [apply elem_of_cons; tauto|tauto].
    + intros [H|(k' & i & Hk & Hi & H)]; [tauto|].
      apply elem_of_cons in Hk as [->|Hk].
      * left. right. exists i. tauto.
      * right. exists k', i. rewrite inserted_index, Hd. tauto.
Qed.

(** **** Insertions commute *)

Lemma inserted_twice_bits f key :
  sized f → bitVector (inserted (inserted f key) key) = bitVector (inserted f key).
Proof.
  intros Hf. pose proof (inserted_sized BitHash f key Hf) as Hf'.
  destruct (inserted_fields BitHash f key) as (_ & Hd & _).
  apply bits_eq.
  - destruct (inserted_kept BitHash (inserted f key) key) as [Hl _]. exact Hl.
  - intros a. rewrite (inserted_lookup _ key a Hf').
    split; [|tauto]. intros [H|(i & Hi & H)]; [exact H|].
    apply (inserted_lookup f key a Hf). right. exists i.
    rewrite inserted_index in H. rewrite Hd in Hi. tauto.
Qed.

Lemma inserted_comm f k1 k2 :
  sized f → inserted (inserted f k1) k2 = inserted (inserted f k2) k1.
Proof.
  intros Hf.
  pose proof (inserted_sized BitHash f k1 Hf) as H1.
  pose proof (inserted_sized BitHash f k2 Hf) as H2.
  destruct (inserted_fields BitHash f k1) as (Ek1 & Ed1 & Ep1 & En1 & Ec1).
  destruct (inserted_fields BitHash f k2) as (Ek2 & Ed2 & Ep2 & En2 & Ec2).
  destruct (inserted_fields BitHash (inserted f k1) k2)
    as (Ek12 & Ed12 & Ep12 & En12 & Ec12).
  destruct (inserted_fields BitHash (inserted f k2) k1)
    as (Ek21 & Ed21 & Ep21 & En21 & Ec21).
  rewrite length_seeds in Ec1, Ec2, Ec12, Ec21.
  apply BloomFilter_eq; try congruence; try lia.
  apply bits_eq.
  - destruct (inserted_kept BitHash (inserted f k1) k2) as [L12 _].
    destruct (inserted_kept BitHash (inserted f k2) k1) as [L21 _].
    destruct (inserted_kept BitHash f k1) as [L1 _].
    destruct (inserted_kept BitHash f k2) as [L2 _]. congruence.
  - intros a.
    rewrite (inserted_lookup _ k2 a H1), (inserted_lookup _ k1 a H2).
    rewrite (inserted_lookup f k1 a Hf), (inserted_lookup f k2 a Hf).
    rewrite Ed1, Ed2.
    setoid_rewrite inserted_index. tauto.
Qed.

Lemma foldl_inserted_perm (keys keys' : list Key) :
  keys ≡ₚ keys' → ∀ f, sized f → foldl inserted f keys = foldl inserted f keys'.
Proof.
  induction 1 as [|k l l' _ IH|k1 k2 l|l1 l2 l3 _ IH1 _ IH2]; intros f Hf.
  - reflexivity.
  - simpl. apply IH, inserted_sized, Hf.
  - simpl. rewrite (inserted_comm f k2 k1 Hf). reflexivity.
  - rewrite (IH1 f Hf). apply IH2, Hf.
Qed.

(** **** What an operation can do to the instance *)

Lemma do_op_cases o f u f' cs :
  do_op o f = Some (u, f', cs) → f' = f ∨ ∃ key, f' = inserted f key.
Proof.
  destruct o as [key|key| |]; simpl.
  - intros H. right. exists key. eapply insert_inv, H.
  - unfold bind.
    destruct (find key f) as [[[b f1] c1]|] eqn:H1; [|discriminate].
    intros [= _ <- _]. left. eapply find_inv, H1.
  - intros [= _ <- _]. left. reflexivity.
  - unfold bind.
    destruct (falsePositiveRate f) as [[[r f1] c1]|] eqn:H1; [|discriminate].
    intros [= _ <- _]. left. apply falsePositiveRate_inv in H1. tauto.
Qed.

Lemma run_ops_config (ops : list (@Op Key)) : ∀ f u f' cs,
  run_ops ops f = Some (u, f', cs) →
  numKeys f' = numKeys f ∧ numHashes f' = numHashes f ∧
  maxFalsePositive f' = maxFalsePositive f ∧ numBits f' = numBits f.
Proof.
  induction ops as [|o ops IH]; intros f u f' cs.
  - intros [= _ <- _]. tauto.
  - unfold run_ops in *. simpl. unfold bind.
    destruct (do_op o f) as [[[u1 f1] c1]|] eqn:H1; [|discriminate].
    destruct (for_ ops do_op f1) as [[[u2 f2] c2]|] eqn:H2; [|discriminate].
    intros [= _ <- _]. destruct (IH _ _ _ _ H2) as (-> & -> & -> & ->).
    apply do_op_cases in H1 as [->|[key ->]]; [tauto|].
    destruct (inserted_fields BitHash f key) as (-> & -> & -> & -> & _). tauto.
Qed.

(** **** When [find] answers [True] *)

Lemma find_true_iff f key :
  sized f →
  ∃ b cs, find key f = Some (b, f, cs) ∧
          (b = true ↔
           ∀ i, 1 ≤ i < numHashes f →
                bitVector f !! Z.to_nat (index f key i) = Some true).
Proof.
  intros Hf. rewrite find_unfold.
  destruct (find_loop_sized BitHash key f Hf (seeds f))
    as [[Hall H]|(l1 & i & l2 & Hl & _ & Hi & H)].
  - exists true, (seed_calls key (seeds f)). split; [exact H|].
    split; [|reflexivity]. intros _ i Hi.
    rewrite <- (bit_lookup f key i Hf). rewrite Forall_forall in Hall.
    apply Hall, elem_of_seeds, Hi.
  - exists false, (seed_calls key (l1 ++ [i])). split; [exact H|].
    split; [discriminate|]. intros Hset. exfalso.
    assert (Hin : i ∈ seeds f).
    { rewrite Hl. apply elem_of_app. right. apply elem_of_cons. tauto. }
    apply elem_of_seeds in Hin. specialize (Hset i Hin).
    rewrite <- (bit_lookup f key i Hf) in Hset. congruence.
Qed.

(** **** Set bits and the counter *)

Lemma popcount_replicate_false n : popcount (replicate n false) = 0%nat.
Proof.
  unfold popcount. induction n as [|n IH]; [reflexivity|].
  simpl. rewrite filter_cons_False by discriminate. exact IH.
Qed.

Lemma popcount_le_length bv : (popcount bv ≤ length bv)%nat.
Proof. unfold popcount. apply length_filter. Qed.

Lemma popcount_insert_le bv : ∀ a, (popcount (<[a:=true]> bv) ≤ S (popcount bv))%nat.
Proof.
  unfold popcount. induction bv as [|b bv IH]; intros a; [simpl; lia|].
  destruct a as [|a]; [|specialize (IH a)]; destruct b; simpl;
    repeat ((rewrite filter_cons_True by reflexivity)
            || (rewrite filter_cons_False by discriminate));
    simpl; lia.
Qed.

Lemma foldl_mark_popcount key (l : list Z) : ∀ f,
  Z.of_nat (popcount (bitVector f)) ≤ bitsSet f →
  Z.of_nat (popcount (bitVector (foldl (mark key) f l)))
  ≤ bitsSet (foldl (mark key) f l).
Proof.
  induction l as [|i l IH]; intros f Hf; simpl; [exact Hf|].
  apply IH. unfold mark. simpl.
  pose proof (popcount_insert_le (bitVector f) (Z.to_nat (index f key i))).
  lia.
Qed.

Lemma run_ops_popcount (ops : list (@Op Key)) : ∀ f u f' cs,
  Z.of_nat (popcount (bitVector f)) ≤ bitsSet f →
  run_ops ops f = Some (u, f', cs) →
  Z.of_nat (popcount (bitVector f')) ≤ bitsSet f'.
Proof.
  induction ops as [|o ops IH]; intros f u f' cs Hf.
  - intros [= _ <- _]. exact Hf.
  - unfold run_ops in *. simpl. unfold bind.
    destruct (do_op o f) as [[[u1 f1] c1]|] eqn:H1; [|discriminate].
    destruct (for_ ops do_op f1) as [[[u2 f2] c2]|] eqn:H2; [|discriminate].
    intros [= _ <- _]. eapply IH; [|exact H2].
    apply do_op_cases in H1 as [->|[key ->]]; [exact Hf|].
    apply foldl_mark_popcount, Hf.
Qed.

(** **** The fresh instance *)

Lemma init_fresh n d p f :
  valid_params n d p → init n d p = Some f →
  well_formed f ∧ numKeys f = n ∧ numHashes f = d ∧ maxFalsePositive f = p ∧
  d ≤ numBits f ∧ bitsSet f = 0 ∧
  bitVector f = replicate (Z.to_nat (numBits f)) false.
Proof.
  intros Hv Hf. destruct (init_valid n d p Hv) as (f' & Hf' & Hw & Hk & Hd & Hp & Hc & Hb).
  assert (f' = f) as -> by congruence.
  repeat split; try assumption; try apply Hw.
  destruct (bitsNeeded_valid n d p Hv) as (N & HN & HdN).
  unfold init in Hf. rewrite HN in Hf. cbn [mbind option_bind] in Hf.
  destruct (BitVector.new N); [|discriminate].
  cbn [mbind option_bind] in Hf. injection Hf as <-. exact HdN.
Qed.

Lemma fresh_bit_clear f a :
  bitVector f = replicate (Z.to_nat (numBits f)) false →
  bitVector f !! a ≠ Some true.
Proof.
  intros -> H. apply lookup_replicate in H as [H _]. discriminate.
Qed.

(** **** Properties *)

(** X1.  With two or more hashes configured, the instance the constructor
    returns contains nothing: [find] answers [False] for every key, after
    a single [BitHash] call. *)
Theorem fresh_filter_finds_nothing n d p f key :
  valid_params n d p → 2 ≤ d → init n d p = Some f →
  find key f = Some (false, f, [(key, 1)]).
Proof.
  intros Hv Hd2 H0.
  destruct (init_fresh n d p f Hv H0) as (Hw & _ & Hd & _ & _ & _ & Hb).
  pose proof (well_formed_sized f Hw) as Hs.
  assert (Hbit : BitVector.getitem (bitVector f) (BitHash key 1 `mod` numBits f)
                 = Some false).
  { pose proof (index_range BitHash f key 1 Hs) as Hr. unfold index in Hr.
    unfold BitVector.getitem. rewrite decide_True by lia.
    rewrite Hb. apply lookup_replicate_2. lia. }
  rewrite find_unfold. unfold seeds, Py.range. rewrite Hd.
  rewrite seqZ_cons by lia. simpl.
  unfold bind, call_BitHash, gets, lift, Py.mod_. simpl.
  destruct Hs as [Hn _]. rewrite decide_False by lia. simpl.
  rewrite Hbit. reflexivity.
Qed.

(** X2.  A positive answer is never withdrawn: if [find(key)] has returned
    [True], then at any point a further sequence of operations on the
    instance reaches, [find(key)] returns [True] again. *)
Theorem positives_are_stable f key cs (ops : list (@Op Key)) u f' cs1 :
  well_formed f →
  find key f = Some (true, f, cs) →
  run_ops ops f = Some (u, f', cs1) →
  ∃ cs2, find key f' = Some (true, f', cs2).
Proof.
  intros Hw Hfind Hrun.
  destruct (run_ops_well_formed BitHash ops f Hw) as (g & c1 & G & Hw' & Hk & _).
  rewrite G in Hrun. injection Hrun as _ <- _.
  destruct (run_ops_config ops f _ _ _ G) as (_ & Hd & _ & Hn).
  destruct (find_true_iff f key (well_formed_sized f Hw)) as (b & c & Hb & Hiff).
  assert (b = true) as -> by congruence.
  destruct (find_true_iff g key (well_formed_sized g Hw')) as (b' & c' & Hb' & Hiff').
  exists c'.
  assert (b' = true) as ->; [|exact Hb'].
  apply Hiff'. intros i Hi. rewrite Hd in Hi.
  destruct Hk as [_ Hk]. unfold index. rewrite Hn.
  apply Hk. apply (proj1 Hiff eq_refl i Hi).
Qed.

(** X3.  False positives come from collisions only.  On an instance built
    from valid parameters into which [keys] have been inserted, [find(key)]
    returns [True] exactly when each of the positions of [key] is a
    position of some inserted key. *)
Theorem found_iff_positions_covered n d p f0 (keys : list Key) key :
  valid_params n d p → init n d p = Some f0 →
  ∃ f cs b cs',
    insert_all keys f0 = Some (tt, f, cs) ∧
    find key f = Some (b, f, cs') ∧
    (b = true ↔
     ∀ i, 1 ≤ i < d →
          ∃ k j, k ∈ keys ∧ 1 ≤ j < d ∧
                 BitHash key i `mod` numBits f0 = BitHash k j `mod` numBits f0).
Proof.
  intros Hv H0.
  destruct (init_fresh n d p f0 Hv H0) as (Hw & _ & Hd & _ & _ & _ & Hb).
  pose proof (well_formed_sized f0 Hw) as Hs.
  destruct (insert_all_sized BitHash keys f0 Hs) as [cs Hcs].
  set (f := foldl inserted f0 keys) in *.
  assert (Hsf : sized f) by (apply foldl_inserted_sized, Hs).
  destruct (foldl_inserted_fields BitHash keys f0) as (_ & Hdf & _ & Hnf & _).
  fold f in Hdf, Hnf.
  destruct (find_true_iff f key Hsf) as (b & cs' & Hfind & Hiff).
  exists f, cs, b, cs'. split; [exact Hcs|]. split; [exact Hfind|].
  rewrite Hiff, Hdf, Hd. unfold index. rewrite Hnf.
  split; intros H i Hi; specialize (H i Hi).
  - apply (foldl_inserted_lookup keys _ f0 Hs) in H as [H|(k & j & Hk & Hj & H)].
    + exfalso. eapply fresh_bit_clear; eassumption.
    + exists k, j. rewrite Hd in Hj. split; [exact Hk|]. split; [exact Hj|].
      pose proof (index_range BitHash f0 key i Hs) as R1.
      pose proof (index_range BitHash f0 k j Hs) as R2.
      unfold index in *. lia.
  - destruct H as (k & j & Hk & Hj & H).
    apply (foldl_inserted_lookup keys _ f0 Hs). right. exists k, j.
    rewrite Hd. split; [exact Hk|]. split; [exact Hj|].
    unfold index. rewrite H. reflexivity.
Qed.

(** X4.  Inserting a key a second time leaves the bit vector as the first
    insertion left it, and still adds [numHashes - 1] to the counter. *)
Theorem insert_twice_same_bits f key :
  well_formed f →
  ∃ f1 f2 cs1 cs2,
    insert key f = Some (tt, f1, cs1) ∧
    insert key f1 = Some (tt, f2, cs2) ∧
    bitVector f2 = bitVector f1 ∧
    bitsSet f2 = bitsSet f1 + (numHashes f - 1).
Proof.
  intros Hw. pose proof (well_formed_sized f Hw) as Hs.
  pose proof (inserted_sized BitHash f key Hs) as Hs1.
  exists (inserted f key), (inserted (inserted f key) key).
  exists (seed_calls key (seeds f)), (seed_calls key (seeds (inserted f key))).
  split; [apply insert_sized, Hs|]. split; [apply insert_sized, Hs1|].
  split; [apply inserted_twice_bits, Hs|].
  destruct (inserted_fields BitHash (inserted f key) key) as (_ & _ & _ & _ & ->).
  destruct (inserted_fields BitHash f key) as (_ & Hd & _).
  rewrite length_seeds, Hd. destruct Hw as (? & _). lia.
Qed.

(** X5.  The instance does not depend on the order of the insertions: two
    sequences of insertions that are permutations of each other leave the
    same bit vector and the same counter. *)
Theorem insertion_order_irrelevant f (keys keys' : list Key) :
  well_formed f → keys ≡ₚ keys' →
  ∃ f' cs cs',
    insert_all keys f = Some (tt, f', cs) ∧
    insert_all keys' f = Some (tt, f', cs').
Proof.
  intros Hw Hp. pose proof (well_formed_sized f Hw) as Hs.
  destruct (insert_all_sized BitHash keys f Hs) as [cs Hcs].
  destruct (insert_all_sized BitHash keys' f Hs) as [cs' Hcs'].
  exists (foldl inserted f keys), cs, cs'. split; [exact Hcs|].
  rewrite (foldl_inserted_perm keys keys' Hp f Hs). exact Hcs'.
Qed.

(** X6.  The counter is an upper bound, not a count: at any point a
    sequence of operations reaches from an instance built from valid
    parameters, the number of bits that are set is at most [numBitsSet()],
    and at most [numBits]. *)
Theorem popcount_at_most_counter n d p f0 (ops : list (@Op Key)) u f cs :
  valid_params n d p → init n d p = Some f0 →
  run_ops ops f0 = Some (u, f, cs) →
  ∃ c,
    numBitsSet f = Some (c, f, []) ∧
    Z.of_nat (popcount (bitVector f)) ≤ c ∧
    Z.of_nat (popcount (bitVector f)) ≤ numBits f.
Proof.
  intros Hv H0 Hrun.
  destruct (init_fresh n d p f0 Hv H0) as (Hw & _ & _ & _ & _ & Hc & Hb).
  destruct (run_ops_well_formed BitHash ops f0 Hw) as (g & c1 & G & Hw' & _ & _).
  assert (g = f) as -> by congruence.
  exists (bitsSet f). split; [reflexivity|].
  split.
  - eapply run_ops_popcount; [|exact Hrun].
    rewrite Hb, popcount_replicate_false, Hc. reflexivity.
  - destruct Hw' as (_ & _ & <- & _).
    apply Nat2Z.inj_le, popcount_le_length.
Qed.

Lemma rate_simplified f :
  well_formed f →
  (1 - IZR (numBits f - bitsSet f) / IZR (numBits f))%R
  = (IZR (bitsSet f) / IZR (numBits f))%R.
Proof.
  intros (_ & Hn & _). rewrite minus_IZR. field.
  apply not_0_IZR. lia.
Qed.

(** X7.  Whatever [falsePositiveRate()] returns on a well-formed instance
    is not negative; it is at most 1 as long as the counter does not
    exceed the number of bits, and at least 1 once the counter has
    reached it. *)
Theorem rate_bounds f r f' cs :
  well_formed f →
  falsePositiveRate f = Some (r, f', cs) →
  (0 <= r)%R ∧
  (bitsSet f ≤ numBits f → (r <= 1)%R) ∧
  (numBits f ≤ bitsSet f → (1 <= r)%R).
Proof.
  intros Hw Hr. rewrite (falsePositiveRate_well_formed f Hw) in Hr.
  injection Hr as <- _ _.
  rewrite (rate_simplified f Hw). destruct Hw as (Hd & Hn & _ & Hc).
  assert (Hn' : (0 < IZR (numBits f))%R) by (apply IZR_lt; lia).
  assert (Hc' : (0 <= IZR (bitsSet f))%R) by (apply IZR_le; lia).
  assert (Hx : (0 <= IZR (bitsSet f) / IZR (numBits f))%R).
  { apply Rmult_le_pos; [exact Hc'|]. left. apply Rinv_0_lt_compat, Hn'. }
  split; [apply pow_le, Hx|]. split.
  - intros Hle. rewrite <- (pow1 (Z.to_nat (numHashes f))).
    apply pow_incr. split; [exact Hx|].
    apply Rmult_le_reg_r with (IZR (numBits f)); [exact Hn'|].
    unfold Rdiv. rewrite Rmult_assoc, Rinv_l, Rmult_1_r, Rmult_1_l by lra.
    apply IZR_le, Hle.
  - intros Hle. apply pow_R1_Rle.
    apply Rmult_le_reg_r with (IZR (numBits f)); [exact Hn'|].
    unfold Rdiv. rewrite Rmult_assoc, Rinv_l, Rmult_1_r, Rmult_1_l by lra.
    apply IZR_le, Hle.
Qed.

(** X9.  The constructor validates nothing, but a zero parameter does not
    go through: with [numKeys = 0], [numHashes = 0] or
    [maxFalsePositive = 0] a division by zero is reached and no instance
    is returned. *)
Theorem constructor_raises_on_zero n d p :
  n = 0 ∨ d = 0 ∨ p = 0%R → init n d p = None.
Proof.
  intros H. unfold init.
  assert (HN : bitsNeeded n d p = None); [|rewrite HN; reflexivity].
  unfold bitsNeeded.
  destruct (Py.truediv 1 (IZR d)) as [e|] eqn:He; [|reflexivity].
  cbn [mbind option_bind].
  assert (Hd : d ≠ 0).
  { intros ->. unfold Py.truediv in He.
    destruct (Req_dec_T 0 0) as [_|Hne]; [discriminate|]. apply Hne. reflexivity. }
  destruct (Py.pow p e) as [q|] eqn:Hq; [|reflexivity].
  cbn [mbind option_bind].
  destruct (Py.truediv 1 (IZR n)) as [e'|] eqn:He'; [|reflexivity].
  cbn [mbind option_bind].
  assert (Hn : n ≠ 0).
  { intros ->. unfold Py.truediv in He'.
    destruct (Req_dec_T 0 0) as [_|Hne]; [discriminate|]. apply Hne. reflexivity. }
  destruct H as [H|[H|H]]; [contradiction|contradiction|]. subst p.
  (* 0 ** e is 0 (e > 0) or is not reached, so bitsStillZero is 1 *)
  assert (q = 0%R) as ->.
  { unfold Py.pow in Hq.
    destruct (Rlt_dec 0 0) as [Hlt|_]; [lra|].
    destruct (Req_dec_T 0 0) as [_|Hne]; [|lra].
    destruct (Rlt_dec 0 e); [congruence|].
    destruct (Req_dec_T e 0) as [He0|_]; [|discriminate].
    exfalso. unfold Py.truediv in He.
    destruct (Req_dec_T (IZR d) 0) as [|Hd0]; [discriminate|].
    injection He as <-. unfold Rdiv in He0. rewrite Rmult_1_l in He0.
    apply Rinv_neq_0_compat in Hd0. contradiction. }
  replace (1 - 0)%R with 1%R by lra.
  rewrite pow_positive by lra. cbn [mbind option_bind].
  assert (Rpower 1 e' = 1%R) as ->.
  { unfold Rpower. rewrite ln_1, Rmult_0_r. apply exp_0. }
  unfold Py.truediv. destruct (Req_dec_T (1 - 1) 0) as [_|Hne]; [reflexivity|].
  exfalso. apply Hne. lra.
Qed.

Lemma init_rate_one n d :
  0 < n → 1 ≤ d →
  init n d 1
  = Some {| numKeys := n; numHashes := d; maxFalsePositive := 1;
            numBits := d; bitVector := replicate (Z.to_nat d) false;
            bitsSet := 0 |}.
Proof.
  intros Hn Hd. unfold init, bitsNeeded.
  assert (Hd' : (1 <= IZR d)%R) by (apply IZR_le; lia).
  assert (Hn' : (1 <= IZR n)%R) by (apply IZR_le; lia).
  rewrite (truediv_defined 1 (IZR d)) by lra. cbn [mbind option_bind].
  rewrite (pow_positive 1) by lra. cbn [mbind option_bind].
  assert (Rpower 1 (1 / IZR d) = 1%R) as ->.
  { unfold Rpower. rewrite ln_1, Rmult_0_r. apply exp_0. }
  rewrite (truediv_defined 1 (IZR n)) by lra. cbn [mbind option_bind].
  replace (1 - 1)%R with 0%R by lra.
  rewrite pow_zero_base by (apply Rdiv_lt_0_compat; lra).
  cbn [mbind option_bind].
  rewrite (truediv_defined (IZR d)) by lra. cbn [mbind option_bind].
  replace (IZR d / (1 - 0))%R with (IZR d) by (field; lra).
  rewrite int_nonneg by lra. rewrite ZfloorZ.
  unfold BitVector.new. rewrite decide_True by lia. reflexivity.
Qed.

(** X10.  A target rate of exactly 1 gives the smallest filter: whatever
    the constructor returns for [maxFalsePositive = 1], with a number of
    hashes that a float holds exactly (at most 2^53), has
    [numBits = numHashes], all bits clear and a counter of 0. *)
Theorem constructor_rate_one n d f :
  0 < n → 1 ≤ d ≤ 2 ^ 53 →
  init n d 1 = Some f →
  f = {| numKeys := n; numHashes := d; maxFalsePositive := 1;
         numBits := d; bitVector := replicate (Z.to_nat d) false;
         bitsSet := 0 |}.
Proof.
  intros Hn [Hd _] Hf. rewrite (init_rate_one n d Hn Hd) in Hf.
  injection Hf as <-. reflexivity.
Qed.


End More.

(** ** Properties of the driver *)

Section DriverProperties.

Variable BitHash : string → Z → Z.
Variable open_ : string → option File.

Abbreviation insert_lines := (insert_lines BitHash).
Abbreviation count_lines := (count_lines BitHash).
Abbreviation main_with := (main_with BitHash open_).
Abbreviation main := (main BitHash open_).
Abbreviation inserted := (inserted BitHash).
Abbreviation find := (find BitHash).

Lemma lines_read_S k (t : File) :
  lines_read (S k) t = (readline t).1 :: lines_read k (readline t).2.
Proof.
  unfold lines_read. destruct t; simpl; [|reflexivity].
  rewrite resize_nil. reflexivity.
Qed.

Lemma readline_drop k (t : File) : drop k (readline t).2 = drop (S k) t.
Proof. destruct t; [destruct k|]; reflexivity. Qed.

(** The first loop inserts the lines read, in order. *)
Lemma insert_lines_sized (r : list Z) : ∀ (t : File) b,
  sized b →
  ∃ cs, insert_lines r t b
        = Some (drop (length r) t,
                foldl inserted b (lines_read (length r) t), cs).
Proof.
  induction r as [|i r IH]; intros t b Hb.
  - exists []. simpl. rewrite drop_0. unfold lines_read. rewrite resize_0.
    reflexivity.
  - cbn [length]. rewrite lines_read_S, <- readline_drop.
    destruct (readline t) as [word t'] eqn:Hr. cbn [fst snd foldl].
    destruct (IH t' (inserted b word) (inserted_sized BitHash b word Hb))
      as [cs Hcs].
    exists (seed_calls word (seeds b) ++ cs).
    simpl. rewrite Hr. unfold bind.
    rewrite (insert_sized BitHash word b Hb), Hcs. reflexivity.
Qed.

(** [find] returns [answer]. *)
Lemma find_answer b (w : string) :
  sized b → ∃ cs, find w b = Some (answer BitHash b w, b, cs).
Proof.
  intros Hb. rewrite find_unfold.
  destruct (find_loop_sized BitHash w b Hb (seeds b))
    as [[Hall H]|(l1 & i & l2 & Hl & _ & Hi & H)].
  - assert (answer BitHash b w = true) as ->; [|eexists; exact H].
    apply forallb_forall. intros i Hi. apply bool_decide_eq_true_2.
    rewrite Forall_forall in Hall. apply Hall, list_elem_of_In, Hi.
  - assert (answer BitHash b w = false) as ->; [|eexists; exact H].
    apply not_true_is_false. intros Ht. unfold answer in Ht.
    rewrite forallb_forall in Ht. specialize (Ht i).
    rewrite bool_decide_eq_true in Ht.
    rewrite Ht in Hi; [discriminate|].
    rewrite Hl. apply in_or_app. right. left. reflexivity.
Qed.

(** A counting loop leaves the instance alone, reads [length r] lines and
    counts those among them for which [find] gives the expected answer. *)
Lemma count_lines_exact expected (r : list Z) : ∀ (t : File) c b,
  sized b →
  ∃ cs,
    count_lines expected r t c b
    = Some ((drop (length r) t,
             c + Z.of_nat (length (filter (λ w, answer BitHash b w = expected)
                                     (lines_read (length r) t)))), b, cs).
Proof.
  induction r as [|i r IH]; intros t c b Hb.
  - exists []. simpl. rewrite drop_0. unfold lines_read. rewrite resize_0.
    simpl. rewrite Z.add_0_r. reflexivity.
  - cbn [length]. rewrite lines_read_S, <- readline_drop.
    destruct (readline t) as [word t'] eqn:Hr. cbn [fst snd].
    destruct (find_answer b word Hb) as [cs1 Hfind].
    destruct (IH t' (if bool_decide (answer BitHash b word = expected)
                     then c + 1 else c) b Hb) as [cs2 Hrun].
    exists (cs1 ++ cs2). simpl. rewrite Hr. unfold bind.
    rewrite Hfind, Hrun. do 3 f_equal.
    case_bool_decide as Hcase.
    + rewrite filter_cons_True by exact Hcase. simpl length. f_equal. lia.
    + rewrite filter_cons_False by exact Hcase. reflexivity.
Qed.

(** A key that is among those inserted is found. *)
Lemma find_inserted_elem b (keys : list string) w :
  sized b → w ∈ keys →
  ∃ cs, find w (foldl inserted b keys) = Some (true, foldl inserted b keys, cs).
Proof.
  intros Hb Hw. apply list_elem_of_split in Hw as (l1 & l2 & ->).
  rewrite foldl_inserted_app. cbn [foldl].
  apply find_after_insert, foldl_inserted_sized, Hb.
Qed.

Lemma filter_none {A} (P : A → Prop) `{∀ x, Decision (P x)} (l : list A) :
  (∀ x, x ∈ l → ¬ P x) → filter P l = [].
Proof.
  induction l as [|x l IH]; intros Hl; [reflexivity|].
  rewrite filter_cons_False by (apply Hl, elem_of_cons; tauto).
  apply IH. intros y Hy. apply Hl, elem_of_cons. tauto.
Qed.

(** What the driver prints, for any valid constants and any file. *)
Lemma main_with_spec n d p (ls : File) :
  valid_params n d p →
  open_ "wordlist.txt" = Some ls →
  ∃ f0,
    init n d p = Some f0 ∧
    let b := foldl inserted f0 (lines_read (Z.to_nat n) ls) in
    let count2 :=
      Z.of_nat (length (filter (λ w, answer BitHash b w = true)
                          (lines_read (Z.to_nat n) (drop (Z.to_nat n) ls)))) in
    0 ≤ count2 ≤ n ∧
    main_with n d p
    = Some [[PStr "The projected false positive rate is:";
             PFloat ((IZR (n * (d - 1)) / IZR (numBits f0)) ^ Z.to_nat d)%R];
            [PInt 0; PStr "words are missing from the Bloom Filter"];
            [PInt count2;
             PStr "words can be falsely found in the Bloom Filter"];
            [PStr "The percentage rate of false positives is:";
             PFloat (IZR count2 / IZR n)%R]].
Proof.
  intros Hv Hopen.
  destruct (init_valid n d p Hv) as (f0 & Hinit & Hw0 & _ & Hd & _ & Hc0 & _).
  pose proof (well_formed_sized f0 Hw0) as Hs0.
  destruct Hv as (Hn & Hd1 & _).
  assert (Hlen : length (Py.range 0 n) = Z.to_nat n).
  { unfold Py.range. rewrite length_seqZ. f_equal. lia. }
  exists f0. split; [exact Hinit|].
  set (words := lines_read (Z.to_nat n) ls).
  set (b := foldl inserted f0 words).
  set (later := lines_read (Z.to_nat n) (drop (Z.to_nat n) ls)).
  cbv zeta.
  destruct (insert_lines_sized (Py.range 0 n) ls f0 Hs0) as [cs1 H1].
  rewrite Hlen in H1. fold words b in H1.
  assert (Hwb : well_formed b) by (apply foldl_inserted_well_formed, Hw0).
  pose proof (well_formed_sized b Hwb) as Hsb.
  destruct (foldl_inserted_fields BitHash words f0) as (_ & Hdb & _ & Hnb & Hcb).
  fold b in Hdb, Hnb, Hcb.
  assert (Hwords : Z.of_nat (length words) = n).
  { unfold words, lines_read. rewrite length_resize. lia. }
  destruct (count_lines_exact false (Py.range 0 n) ls 0 b Hsb) as [cs2 H2].
  rewrite Hlen in H2. fold words in H2.
  rewrite (filter_none _ words) in H2.
  2:{ intros w Hw Hfalse.
      destruct (find_inserted_elem f0 words w Hs0 Hw) as [c1 F1].
      destruct (find_answer b w Hsb) as [c2 F2]. fold b in F1.
      rewrite F1 in F2. injection F2 as F2 _. congruence. }
  destruct (count_lines_exact true (Py.range 0 n) (drop (Z.to_nat n) ls) 0 b Hsb)
    as [cs3 H3].
  rewrite Hlen in H3. fold later in H3.
  split.
  { pose proof (length_filter (λ w, answer BitHash b w = true) later) as Hle.
    unfold later at 2 in Hle. unfold lines_read in Hle.
    rewrite length_resize in Hle. lia. }
  unfold main_with. rewrite Hinit. cbn [mbind option_bind].
  rewrite Hopen. cbn [mbind option_bind].
  rewrite H1. cbn [mbind option_bind].
  rewrite (falsePositiveRate_well_formed b Hwb). cbn [mbind option_bind].
  rewrite H2. cbn [mbind option_bind].
  rewrite H3. cbn [mbind option_bind].
  rewrite truediv_defined by (apply not_0_IZR; lia). cbn [mbind option_bind].
  rewrite (rate_simplified b Hwb), Hdb, Hnb, Hcb, Hc0, Hd, Hwords.
  rewrite Z.max_r by lia. rewrite !Z.add_0_l. reflexivity.
Qed.

Lemma main_constants_valid : valid_params 100000 4 (5 / 100).
Proof. unfold valid_params. split; [lia|]. split; [lia|lra]. Qed.


(** X13.  The number the driver reports as falsely found is exactly the
    number of lines, among the second 100000 read, for which every bit
    [find] reads is set in the filter that holds the first 100000.  It lies
    between 0 and 100000, and the rate printed last is that number divided
    by 100000. *)
Theorem main_false_positive_count (ls : File) :
  open_ "wordlist.txt" = Some ls →
  ∃ f0 line1 line2,
    init 100000 4 (5 / 100) = Some f0 ∧
    let b := foldl inserted f0 (lines_read (Z.to_nat 100000) ls) in
    let count2 :=
      Z.of_nat (length (filter (λ w, answer BitHash b w = true)
                          (lines_read (Z.to_nat 100000)
                             (drop (Z.to_nat 100000) ls)))) in
    main = Some [line1; line2;
                 [PInt count2;
                  PStr "words can be falsely found in the Bloom Filter"];
                 [PStr "The percentage rate of false positives is:";
                  PFloat (IZR count2 / 100000)%R]] ∧
    0 ≤ count2 ≤ 100000.
Proof.
  intros Hopen.
  destruct (main_with_spec 100000 4 (5 / 100) ls main_constants_valid Hopen)
    as (f0 & Hinit & Hbound & Hmain).
  exists f0. eexists _, _. split; [exact Hinit|].
  split; [exact Hmain|exact Hbound].
Qed.

(** X14.  The projected rate the driver prints first is
    [(300000 / numBits) ** 4]: the 100000 insertions count 3 bit writes
    each, not 4, where [numBits] is the size [BloomFilter(100000, 4, .05)]
    was given. *)
Theorem main_projected_rate (ls : File) :
  open_ "wordlist.txt" = Some ls →
  ∃ f0 line2 line3 line4,
    init 100000 4 (5 / 100) = Some f0 ∧
    main = Some [[PStr "The projected false positive rate is:";
                  PFloat ((300000 / IZR (numBits f0)) ^ 4)%R];
                 line2; line3; line4].
Proof.
  intros Hopen.
  destruct (main_with_spec 100000 4 (5 / 100) ls main_constants_valid Hopen)
    as (f0 & Hinit & _ & Hmain).
  exists f0. eexists _, _, _. split; [exact Hinit|]. exact Hmain.
Qed.

End DriverProperties.

(** ** The further properties at concrete instances *)

Lemma filled_half_well_formed : well_formed filled_half.
Proof. unfold well_formed. simpl. lia. Qed.

Lemma fresh_filter_finds_nothing_witness :
  valid_params 1 3 ((1 / 2) ^ 3) ∧ 2 ≤ 3 ∧
  init 1 3 ((1 / 2) ^ 3) = Some (fresh_half 3) ∧
  find toy_hash 11 (fresh_half 3) = Some (false, fresh_half 3, [(11, 1)]).
Proof.
  split; [exact fresh_half_valid|]. split; [lia|].
  split; [exact (init_fresh_half 3 ltac:(lia))|].
  apply (fresh_filter_finds_nothing toy_hash 1 3 ((1 / 2) ^ 3)%R).
  - exact fresh_half_valid.
  - lia.
  - exact (init_fresh_half 3 ltac:(lia)).
Defined.

Lemma positives_are_stable_witness :
  well_formed filled_half ∧
  find toy_hash 7 filled_half = Some (true, filled_half, [(7, 1); (7, 2)]) ∧
  ∃ f' cs1 cs2,
    run_ops toy_hash [OpInsert 3; OpNumBitsSet; OpFind 5] filled_half
    = Some (tt, f', cs1) ∧
    find toy_hash 7 f' = Some (true, f', cs2).
Proof.
  split; [exact filled_half_well_formed|]. split; [reflexivity|].
  assert (Hrun : ∃ f' cs1,
            run_ops toy_hash [OpInsert 3; OpNumBitsSet; OpFind 5] filled_half
            = Some (tt, f', cs1)) by (eexists _, _; reflexivity).
  destruct Hrun as (f' & cs1 & Hrun).
  destruct (positives_are_stable toy_hash filled_half 7 [(7, 1); (7, 2)] _ _ _ _
              filled_half_well_formed eq_refl Hrun) as [cs2 Hfind].
  exists f', cs1, cs2. split; [exact Hrun|exact Hfind].
Defined.

Lemma found_iff_positions_covered_witness :
  valid_params 1 3 ((1 / 2) ^ 3) ∧
  init 1 3 ((1 / 2) ^ 3) = Some (fresh_half 3) ∧
  ∃ f cs b cs',
    insert_all toy_hash [7; 3] (fresh_half 3) = Some (tt, f, cs) ∧
    find toy_hash 5 f = Some (b, f, cs').
Proof.
  split; [exact fresh_half_valid|].
  split; [exact (init_fresh_half 3 ltac:(lia))|].
  destruct (found_iff_positions_covered toy_hash 1 3 ((1 / 2) ^ 3)%R
              (fresh_half 3) [7; 3] 5 fresh_half_valid
              (init_fresh_half 3 ltac:(lia)))
    as (f & cs & b & cs' & Hins & Hfind & _).
  exists f, cs, b, cs'. split; [exact Hins|exact Hfind].
Defined.

Lemma insert_twice_same_bits_witness :
  well_formed (fresh_half 3) ∧
  ∃ f1 f2 cs1 cs2,
    insert toy_hash 7 (fresh_half 3) = Some (tt, f1, cs1) ∧
    insert toy_hash 7 f1 = Some (tt, f2, cs2) ∧
    bitVector f2 = bitVector f1 ∧
    bitsSet f2 = bitsSet f1 + (3 - 1).
Proof.
  split; [exact fresh_half_well_formed|].
  exact (insert_twice_same_bits toy_hash (fresh_half 3) 7 fresh_half_well_formed).
Defined.

Lemma insertion_order_irrelevant_witness :
  well_formed (fresh_half 3) ∧ [3; 7; 11] ≡ₚ [11; 3; 7] ∧
  ∃ f' cs cs',
    insert_all toy_hash [3; 7; 11] (fresh_half 3) = Some (tt, f', cs) ∧
    insert_all toy_hash [11; 3; 7] (fresh_half 3) = Some (tt, f', cs').
Proof.
  assert (Hp : [3; 7; 11] ≡ₚ [11; 3; 7]).
  { change ([3; 7] ++ [11] ≡ₚ [11] ++ [3; 7]). apply Permutation_app_comm. }
  split; [exact fresh_half_well_formed|]. split; [exact Hp|].
  exact (insertion_order_irrelevant toy_hash (fresh_half 3) _ _
           fresh_half_well_formed Hp).
Defined.

Lemma popcount_at_most_counter_witness :
  valid_params 1 3 ((1 / 2) ^ 3) ∧
  init 1 3 ((1 / 2) ^ 3) = Some (fresh_half 3) ∧
  ∃ f cs c,
    run_ops toy_hash [OpInsert 7; OpInsert 7] (fresh_half 3) = Some (tt, f, cs) ∧
    @numBitsSet Z f = Some (c, f, []) ∧
    Z.of_nat (popcount (bitVector f)) ≤ c.
Proof.
  split; [exact fresh_half_valid|].
  split; [exact (init_fresh_half 3 ltac:(lia))|].
  assert (Hrun : ∃ f cs,
            run_ops toy_hash [OpInsert 7; OpInsert 7] (fresh_half 3)
            = Some (tt, f, cs)) by (eexists _, _; reflexivity).
  destruct Hrun as (f & cs & Hrun).
  destruct (popcount_at_most_counter toy_hash 1 3 ((1 / 2) ^ 3)%R (fresh_half 3)
              [OpInsert 7; OpInsert 7] _ _ _ fresh_half_valid
              (init_fresh_half 3 ltac:(lia)) Hrun)
    as (c & Hc & Hle & _).
  exists f, cs, c. split; [exact Hrun|]. split; [exact Hc|exact Hle].
Defined.

Lemma rate_bounds_witness :
  well_formed filled_half ∧
  ∃ r, @falsePositiveRate Z filled_half = Some (r, filled_half, []) ∧
       (0 <= r)%R ∧ (r <= 1)%R.
Proof.
  split; [exact filled_half_well_formed|].
  pose proof (@falsePositiveRate_well_formed Z filled_half filled_half_well_formed)
    as Hr.
  destruct (@rate_bounds Z filled_half _ _ _ filled_half_well_formed Hr)
    as (Hpos & Hle & _).
  eexists. split; [exact Hr|]. split; [exact Hpos|].
  apply Hle. simpl. lia.
Defined.

Lemma constructor_raises_on_zero_witness :
  (1 = 0 ∨ 0 = 0 ∨ (5 / 100)%R = 0%R) ∧ init 1 0 (5 / 100) = None.
Proof.
  assert (H : 1 = 0 ∨ 0 = 0 ∨ (5 / 100)%R = 0%R) by (right; left; reflexivity).
  split; [exact H|]. exact (constructor_raises_on_zero 1 0 (5 / 100)%R H).
Defined.

Lemma constructor_rate_one_witness :
  0 < 10 ∧ 1 ≤ 4 ≤ 2 ^ 53 ∧ ∃ f, init 10 4 1 = Some f ∧ numBits f = 4.
Proof.
  split; [lia|]. split; [lia|].
  assert (Hex : ∃ f, init 10 4 1 = Some f)
    by (eexists; exact (init_rate_one 10 4 ltac:(lia) ltac:(lia))).
  destruct Hex as [f Hf]. exists f. split; [exact Hf|].
  rewrite (constructor_rate_one 10 4 f ltac:(lia) ltac:(lia) Hf).
  reflexivity.
Defined.



Lemma main_false_positive_count_witness :
  toy_open "wordlist.txt" = Some ["apple"%string; "pear"%string] ∧
  ∃ line1 line2 line3 line4,
    main toy_string_hash toy_open = Some [line1; line2; line3; line4].
Proof.
  split; [reflexivity|].
  destruct (main_false_positive_count toy_string_hash toy_open _ eq_refl)
    as (f0 & line1 & line2 & _ & Hmain & _).
  eexists line1, line2, _, _. exact Hmain.
Defined.

Lemma main_projected_rate_witness :
  toy_open "wordlist.txt" = Some ["apple"%string; "pear"%string] ∧
  ∃ f0 line1 line2 line3 line4,
    init 100000 4 (5 / 100) = Some f0 ∧
    main toy_string_hash toy_open = Some [line1; line2; line3; line4].
Proof.
  split; [reflexivity|].
  destruct (main_projected_rate toy_string_hash toy_open _ eq_refl)
    as (f0 & line2 & line3 & line4 & Hinit & Hmain).
  exists f0. eexists _, line2, line3, line4. split; [exact Hinit|exact Hmain].
Defined.
